(** * Tic-Tac-Toe with a minimax opponent: a shallow embedding of [main.py]

    The board is the Python list of one-character strings that the program
    passes around and mutates in place.  Reads and writes by index are
    fallible ([IndexError] when the index is out of range), the recursive
    search threads the board through every call and hands it back with its
    result, and the recursion of [minimax] is driven by a fuel argument. *)

From Stdlib Require Import ZArith String Sorted.
From stdpp Require Import base list strings pmap.

Local Open Scope Z_scope.
Local Open Scope nat_scope.

(** ** Outcomes of a call *)

(** A call either returns a value, raises Python's [IndexError], or (in the
    model only) exhausts the fuel that bounds the recursion depth. *)
Inductive result (A : Type) : Type :=
  | Ok (a : A)
  | IndexError
  | OutOfFuel.

Arguments Ok {A} a.
Arguments IndexError {A}.
Arguments OutOfFuel {A}.

Definition bind {A B : Type} (r : result A) (k : A → result B) : result B :=
  match r with
  | Ok a => k a
  | IndexError => IndexError
  | OutOfFuel => OutOfFuel
  end.

Notation "x <- r ;; k" := (bind r (fun x => k))
  (at level 100, r at next level, right associativity).

(** ** Constants and the board *)

Definition PLAYER : string := "X".
Definition COMPUTER : string := "O".
Definition EMPTY : string := " ".

(** [List[str]]: any list of strings; the game only ever builds lists of
    nine cells. *)
Abbreviation board := (list string).

(** [board[i]] *)
Definition get_item (b : board) (i : nat) : result string :=
  match b !! i with
  | Some c => Ok c
  | None => IndexError
  end.

(** [board[i] = v] *)
Definition set_item (b : board) (i : nat) (v : string) : result board :=
  if i <? length b then Ok (<[i:=v]> b) else IndexError.

(** ** Board queries *)

Definition win_lines : list (nat * nat * nat) :=
  [ (0, 1, 2);
    (3, 4, 5);
    (6, 7, 8);
    (0, 3, 6);
    (1, 4, 7);
    (2, 5, 8);
    (0, 4, 8);
    (2, 4, 6) ].

(** [all(board[i] == symbol for i in line)]: the generator is consumed left
    to right and stops at the first cell that differs. *)
Fixpoint all_cells (b : board) (symbol : string) (line : list nat) : result bool :=
  match line with
  | [] => Ok true
  | i :: rest =>
      c <- get_item b i ;;
      if String.eqb c symbol then all_cells b symbol rest else Ok false
  end.

(** [any(... for line in win_lines)]: stops at the first complete line. *)
Fixpoint any_line (b : board) (symbol : string) (lines : list (nat * nat * nat))
  : result bool :=
  match lines with
  | [] => Ok false
  | (i, j, k) :: rest =>
      full <- all_cells b symbol [i; j; k] ;;
      if full then Ok true else any_line b symbol rest
  end.

(** [check_win]: reads the board, returns a truth value. *)
Definition check_win (b : board) (symbol : string) : result bool :=
  any_line b symbol win_lines.

(** [all(cell != EMPTY for cell in board)] *)
Definition check_draw (b : board) : bool :=
  forallb (fun cell => negb (String.eqb cell EMPTY)) b.

(** [enumerate(board)], counting from [start]. *)
Fixpoint enumerate_from (start : nat) (b : board) : list (nat * string) :=
  match b with
  | [] => []
  | cell :: rest => (start, cell) :: enumerate_from (S start) rest
  end.

Definition enumerate (b : board) : list (nat * string) := enumerate_from 0 b.

(** [[index for index, cell in enumerate(board) if cell == EMPTY]] *)
Definition get_available_moves (b : board) : list nat :=
  map fst (List.filter (fun ic => String.eqb (snd ic) EMPTY) (enumerate b)).

(** [make_move]: [board[index] = symbol]. *)
Definition make_move (b : board) (index : nat) (symbol : string) : result board :=
  set_item b index symbol.

(** ** Scores *)

(** [best_score] starts at [-float("inf")] or [float("inf")]; the scores
    handed back by terminal positions are the integers 1, -1 and 0. *)
Inductive score : Type :=
  | NegInf
  | Fin (z : Z)
  | PosInf.

(** [a > b] on Python numbers *)
Definition score_gt (a b : score) : bool :=
  match a, b with
  | NegInf, _ => false
  | _, PosInf => false
  | Fin x, Fin y => (y <? x)%Z
  | Fin _, NegInf => true
  | PosInf, _ => true
  end.

(** [a < b] *)
Definition score_lt (a b : score) : bool := score_gt b a.

(** ** The search *)

Definition outcome : Type := board * (score * option nat).

Section Search.

(** The recursive call [minimax(board, flag)]. *)
Variable rec : bool → board → result outcome.

(** The first three statements of the loop body: place the mark, search
    the resulting position, take the mark back. *)
Definition try_move (is_maximizing : bool) (b : board) (move : nat)
  : result (board * score) :=
  b1 <- set_item b move (if is_maximizing then COMPUTER else PLAYER) ;;
  r <- rec (negb is_maximizing) b1 ;;
  let '(b2, (sc, _)) := r in
  b3 <- set_item b2 move EMPTY ;;
  Ok (b3, sc).

(** The two [if] statements that close the loop body. *)
Definition update_best (is_maximizing : bool) (sc : score) (move : nat)
    (best : score * option nat) : score * option nat :=
  let best1 :=
    if is_maximizing && score_gt sc (fst best) then (sc, Some move) else best in
  if negb is_maximizing && score_lt sc (fst best1) then (sc, Some move) else best1.

(** [for move in get_available_moves(board): ...] over the list computed
    before the first iteration. *)
Fixpoint search_loop (is_maximizing : bool) (moves : list nat) (b : board)
    (best : score * option nat) : result outcome :=
  match moves with
  | [] => Ok (b, best)
  | move :: rest =>
      r <- try_move is_maximizing b move ;;
      let '(b', sc) := r in
      search_loop is_maximizing rest b' (update_best is_maximizing sc move best)
  end.

(** The body of [minimax]: the three terminal checks, then the loop. *)
Definition minimax_body (is_maximizing : bool) (b : board) : result outcome :=
  won <- check_win b COMPUTER ;;
  if won then Ok (b, (Fin 1, None)) else
  lost <- check_win b PLAYER ;;
  if lost then Ok (b, (Fin (-1), None)) else
  if check_draw b then Ok (b, (Fin 0, None)) else
  search_loop is_maximizing (get_available_moves b) b
    (if is_maximizing then NegInf else PosInf, None).

End Search.

(** [minimax], to a recursion depth of [fuel]. *)
Fixpoint minimax (fuel : nat) (is_maximizing : bool) (b : board) : result outcome :=
  match fuel with
  | O => OutOfFuel
  | S fuel' => minimax_body (minimax fuel') is_maximizing b
  end.

(** Python's recursion carries no fuel.  Every recursive call is made on a
    board with one Empty cell fewer, so a depth of one more than the length
    of the board is never exhausted ([search_fuel_suffices] below);
    [search] is the call [minimax(board, flag)] as the program makes it. *)
Definition search (is_maximizing : bool) (b : board) : result outcome :=
  minimax (S (length b)) is_maximizing b.

(** [get_computer_move]: [get_available_moves(board)[0]] raises
    [IndexError] on an empty list. *)
Definition get_computer_move (b : board) : result (board * nat) :=
  r <- search true b ;;
  let '(b', (_, move)) := r in
  match move with
  | Some m => Ok (b', m)
  | None =>
      match get_available_moves b' !! 0 with
      | Some m => Ok (b', m)
      | None => IndexError
      end
  end.

(** ** The game loop *)

(** [[EMPTY] * 9] *)
Definition empty_board : board := replicate 9 EMPTY.

(** How one pass through the body of [while True] ends: [break] after a
    win, [break] after a draw, or the next pass with the other player. *)
Inductive status : Type :=
  | Won (winner : string)
  | Drawn
  | Running (current_player : string).

(** The tail of the loop body, after the move has been made. *)
Definition finish_turn (b : board) (current_player : string) : result status :=
  won <- check_win b current_player ;;
  if won then Ok (Won current_player)
  else if check_draw b then Ok Drawn
  else Ok (Running (if String.eqb current_player PLAYER then COMPUTER else PLAYER)).

(** What [get_player_move] accepts: row and column in 1..3, hence an index
    below 9, on a square that holds [EMPTY]. *)
Definition valid_player_move (b : board) (index : nat) : Prop :=
  index < 9 ∧ b !! index = Some EMPTY.

(** One pass through the loop body; [input] is the index that
    [get_player_move] returns and is read on the human's turn only. *)
Definition play_turn (b : board) (current_player : string) (input : nat)
  : result (board * status) :=
  b' <- (if String.eqb current_player PLAYER then make_move b input PLAYER
         else r <- get_computer_move b ;;
              let '(b1, move) := r in make_move b1 move COMPUTER) ;;
  st <- finish_turn b' current_player ;;
  Ok (b', st).

(** One pass in which the mover, whoever it is, takes any Empty square. *)
Definition free_turn (b : board) (current_player : string) (index : nat)
  : result (board * status) :=
  b' <- make_move b index current_player ;;
  st <- finish_turn b' current_player ;;
  Ok (b', st).

Section Runs.

(** [turn b p b' st]: a pass that starts on board [b] with [p] to move
    can end on board [b'] in status [st]. *)
Variable turn : board → string → board → status → Prop.

(** States of [play_game] after any number of passes, from the fresh
    board with the human to move. *)
Inductive reachable : board → status → Prop :=
  | reachable_start : reachable empty_board (Running PLAYER)
  | reachable_turn b p b' st :
      reachable b (Running p) → turn b p b' st → reachable b' st.

End Runs.

(** The program's own passes: the human enters any valid index, the
    computer plays [get_computer_move]. *)
Definition game_turn (b : board) (p : string) (b' : board) (st : status) : Prop :=
  ∃ input, (p = PLAYER → valid_player_move b input) ∧ play_turn b p input = Ok (b', st).

(** Passes in which either side may take any Empty square. *)
Definition any_turn (b : board) (p : string) (b' : board) (st : status) : Prop :=
  ∃ index, b !! index = Some EMPTY ∧ free_turn b p index = Ok (b', st).

(** ** Vocabulary of the statements and of the proofs *)

(** A line of [win_lines] held by [symbol]. *)
Definition has_line (b : board) (symbol : string) : Prop :=
  ∃ i j k, (i, j, k) ∈ win_lines ∧
    b !! i = Some symbol ∧ b !! j = Some symbol ∧ b !! k = Some symbol.

(** The number of Empty cells. *)
Definition count_empty (b : board) : nat := length (get_available_moves b).

(** The comparison that the loop applies for the side to move. *)
Definition beats (is_maximizing : bool) (a b : score) : bool :=
  if is_maximizing then score_gt a b else score_lt a b.

(** The mark that the search places for the side to move. *)
Definition mark_of (is_maximizing : bool) : string :=
  if is_maximizing then COMPUTER else PLAYER.

(** [get_available_moves] when [enumerate] starts counting at [n]. *)
Definition moves_from (n : nat) (b : board) : list nat :=
  map fst (List.filter (fun ic => String.eqb (snd ic) EMPTY) (enumerate_from n b)).

(** The score that the loop body obtains for candidate [move]. *)
Definition score_at (rec : bool → board → result outcome) (m : bool) (b : board)
    (move : nat) : score :=
  match try_move rec m b move with
  | Ok (_, sc) => sc
  | _ => NegInf
  end.

(** The best pair after the candidates [moves], starting from [best]. *)
Definition pick_best (m : bool) (sc : nat → score) (moves : list nat)
    (best : score * option nat) : score * option nat :=
  fold_left (λ acc move, update_best m (sc move) move acc) moves best.

(** The three scores of a finished game. *)
Definition in_range (z : Z) : Prop := (z = -1 ∨ z = 0 ∨ z = 1)%Z.

(** What holds of a board and the status that the loop has reached on it. *)
Definition turn_inv (b : board) (st : status) : Prop :=
  length b = 9 ∧
  match st with
  | Running p =>
      (p = PLAYER ∨ p = COMPUTER) ∧
      ¬ has_line b PLAYER ∧ ¬ has_line b COMPUTER ∧ EMPTY ∈ b
  | Won w =>
      (w = PLAYER ∧ ¬ has_line b COMPUTER) ∨ (w = COMPUTER ∧ ¬ has_line b PLAYER)
  | Drawn => ¬ has_line b PLAYER ∧ ¬ has_line b COMPUTER
  end.

(** The draw of the spec: full, and no line for either side. *)
Definition drawn_board : board := ["X"; "O"; "X"; "X"; "O"; "O"; "O"; "X"; "X"].

(** The search values the position, with the given side to move, at a draw
    or better for the computer. *)
Definition holds_draw (m : bool) (b : board) : Prop :=
  ∃ z mv, search m b = Ok (b, (Fin z, mv)) ∧ (0 ≤ z)%Z.

(** What the loop of [play_game] maintains on top of [turn_inv]. *)
Definition game_inv (b : board) (st : status) : Prop :=
  match st with
  | Running p => (p = PLAYER ∧ holds_draw false b) ∨ (p = COMPUTER ∧ holds_draw true b)
  | Won w => w = COMPUTER
  | Drawn => True
  end.

(** ** A table of searched positions

    These definitions are not part of the program.  The search of the
    fresh board visits some half a million positions, most of them many
    times over; its result is established through a table with one entry
    per position and side to move.  An entry is accepted when the body of
    [minimax], with the table answering the recursive calls, returns its
    value.  Nothing is assumed of how the table was filled. *)

(** An entry: the side to move, the position, and what the search returns. *)
Definition entry : Type := bool * board * (score * option nat).

(** Where an entry is stored: two bits per cell after one for the side. *)
Definition key (m : bool) (b : board) : positive :=
  fold_left
    (λ k cell,
       if String.eqb cell PLAYER then k~0~1
       else if String.eqb cell COMPUTER then k~1~0
       else k~0~0)%positive
    b (if m then 2 else 3)%positive.

(** Equality of boards, cell by cell. *)
Fixpoint board_eqb (a b : board) : bool :=
  match a, b with
  | [], [] => true
  | x :: a', y :: b' => String.eqb x y && board_eqb a' b'
  | _, _ => false
  end.

Global Instance score_eq_dec : EqDecision score.
Proof. solve_decision. Defined.

(** The table in the place of the recursive call. *)
Definition tlookup (t : Pmap entry) (flag : bool) (b : board) : result outcome :=
  match t !! key flag b with
  | Some (m0, b0, r) =>
      if Bool.eqb m0 flag && board_eqb b0 b then Ok (b, r) else OutOfFuel
  | None => OutOfFuel
  end.

(** An entry is accepted when one step of the search reproduces it. *)
Definition entry_ok (t : Pmap entry) (e : entry) : bool :=
  let '(m, b, r) := e in
  match minimax_body (tlookup t) m b with
  | Ok (b', r') => board_eqb b' b && bool_decide (r' = r)
  | _ => false
  end.

(** A table is accepted when all its entries are. *)
Definition table_ok (t : Pmap entry) : bool :=
  forallb (λ kv, entry_ok t (snd kv)) (map_to_list t).

(** Fills the table with the positions below [b], each searched once. *)
Fixpoint fill (fuel : nat) (m : bool) (b : board) (t : Pmap entry)
  : Pmap entry * (score * option nat) :=
  match fuel with
  | O => (t, (NegInf, None))
  | S fuel' =>
      match t !! key m b with
      | Some (_, _, r) => (t, r)
      | None =>
          let '(t', r) :=
            match check_win b COMPUTER, check_win b PLAYER with
            | Ok false, Ok false =>
                if check_draw b then (t, (Fin 0, None))
                else
                  fold_left
                    (λ acc move,
                       let '(t1, best) := acc in
                       let '(t2, (sc, _)) :=
                         fill fuel' (negb m) (<[move:=mark_of m]> b) t1 in
                       (t2, update_best m sc move best))
                    (get_available_moves b)
                    (t, (if m then NegInf else PosInf, None))
            | Ok true, _ => (t, (Fin 1, None))
            | _, _ => (t, (Fin (-1), None))
            end in
          (<[key m b := (m, b, r)]> t', r)
      end
  end.

(** The positions below the fresh board, for either side moving first. *)
Definition fresh_table : Pmap entry :=
  fst (fill 10 true empty_board (fst (fill 10 false empty_board ∅))).

(** An accepted table that has both searches of the fresh board return
    score 0 and move 0. *)
Definition table_checked (t : Pmap entry) : bool :=
  table_ok t &&
  match tlookup t true empty_board, tlookup t false empty_board with
  | Ok (_, r1), Ok (_, r2) =>
      bool_decide (r1 = (Fin 0, Some 0)) && bool_decide (r2 = (Fin 0, Some 0))
  | _, _ => false
  end.

(** ** The console

    The functions that talk to the user read lines with [input] and write
    with [print].  The console holds the lines still to be read and the
    pieces of text written so far, oldest first. *)

Record console : Type := Console {
  stdin : list string;
  stdout : list string
}.

(** The exceptions that the program can let escape. *)
Inductive exception : Type :=
  | PyIndexError
  | PyEOFError
  | PyValueError.

(** How a call that uses the console ends: it returns, it raises, or (in
    the model only) a [while True] loop is cut off by its fuel. *)
Inductive run (A : Type) : Type :=
  | Returned (a : A) (c : console)
  | Raised (e : exception) (c : console)
  | Exhausted.

Arguments Returned {A} a c.
Arguments Raised {A} e c.
Arguments Exhausted {A}.

Definition io (A : Type) : Type := console → run A.

Definition io_ret {A : Type} (a : A) : io A := fun c => Returned a c.

Definition io_bind {A B : Type} (m : io A) (k : A → io B) : io B :=
  fun c =>
    match m c with
    | Returned a c' => k a c'
    | Raised e c' => Raised e c'
    | Exhausted => Exhausted
    end.

Notation "'let*' x ':=' m 'in' k" := (io_bind m (fun x => k))
  (at level 10, x name, m at level 100, k at level 200).

(** A call of the board functions from code that uses the console. *)
Definition lift {A : Type} (r : result A) : io A :=
  fun c =>
    match r with
    | Ok a => Returned a c
    | IndexError => Raised PyIndexError c
    | OutOfFuel => Exhausted
    end.

Definition raise {A : Type} (e : exception) : io A := fun c => Raised e c.

(** The line feed. *)
Definition newline : string := String (Ascii.ascii_of_nat 10) "".

(** [sys.stdout.write(text)] *)
Definition write (text : string) : io unit :=
  fun c => Returned tt {| stdin := stdin c; stdout := stdout c ++ [text] |}.

(** [print(text)] *)
Definition print (text : string) : io unit := write (text ++ newline).

(** [input(prompt)]: the prompt is written, then a line is taken from the
    input, or [EOFError] is raised when there is none. *)
Definition input (prompt : string) : io string :=
  let* _ := write prompt in
  fun c =>
    match stdin c with
    | [] => Raised PyEOFError c
    | line :: rest => Returned line {| stdin := rest; stdout := stdout c |}
    end.

(** The methods of [str] and the built-in [int] that the program calls on
    what the user typed.  They are taken as given: [py_int] is [None] where
    [int] raises [ValueError].  Text is the sequence of its bytes; the
    program itself looks at single characters only to find the comma and
    compares whole texts for equality. *)
Record str_methods : Type := StrMethods {
  py_strip : string → string;
  py_lower : string → string;
  py_isdigit : string → bool;
  py_int : string → option Z
}.

(** The character [","]. *)
Definition comma : Ascii.ascii := Ascii.ascii_of_nat 44.

(** [move.split(",", 1)]: the text before the first comma and the text
    after it, or [None] when there is no comma (the list has one item). *)
Fixpoint split_comma (s : string) : option (string * string) :=
  match s with
  | EmptyString => None
  | String a rest =>
      if Ascii.eqb a comma then Some (EmptyString, rest)
      else match split_comma rest with
           | Some (before, after) => Some (String a before, after)
           | None => None
           end
  end.

(** ["," in s] *)
Fixpoint has_comma (s : string) : bool :=
  match s with
  | EmptyString => false
  | String a rest => Ascii.eqb a comma || has_comma rest
  end.

(** [display_board]: the arguments of each [format] are read from the
    board, left to right, before the line is printed. *)
Definition board_row (b : board) (label : string) (i j k : nat) : io unit :=
  let* c0 := lift (get_item b i) in
  let* c1 := lift (get_item b j) in
  let* c2 := lift (get_item b k) in
  print (label ++ "  " ++ c0 ++ " | " ++ c1 ++ " | " ++ c2).

Definition display_board (b : board) : io unit :=
  let* _ := print newline in
  let* _ := print "   1   2   3" in
  let* _ := board_row b "1" 0 1 2 in
  let* _ := print "  ---+---+---" in
  let* _ := board_row b "2" 3 4 5 in
  let* _ := print "  ---+---+---" in
  let* _ := board_row b "3" 6 7 8 in
  print newline.

Section Dialogue.

Variable py : str_methods.

(** One pass of the loop of [get_player_move] on the line just read:
    [None] stands for [continue]. *)
Definition read_move (b : board) (line : string) : io (option nat) :=
  let move := py_strip py line in
  if negb (has_comma move) then
    let* _ := print "Please use the format row,col (e.g. 2,1)." in io_ret None
  else
    match split_comma move with
    | None => raise PyValueError
    | Some (before, after) =>
        let row_str := py_strip py before in
        let col_str := py_strip py after in
        if negb (py_isdigit py row_str) || negb (py_isdigit py col_str) then
          let* _ := print "Row and column must be numbers between 1 and 3." in
          io_ret None
        else
          match py_int py row_str with
          | None => raise PyValueError
          | Some row =>
              match py_int py col_str with
              | None => raise PyValueError
              | Some col =>
                  if negb (bool_decide (row ∈ [1; 2; 3]%Z))
                     || negb (bool_decide (col ∈ [1; 2; 3]%Z)) then
                    let* _ := print "Row and column must each be between 1 and 3." in
                    io_ret None
                  else
                    let index := Z.to_nat ((row - 1) * 3 + (col - 1)) in
                    let* cell := lift (get_item b index) in
                    if negb (String.eqb cell EMPTY) then
                      let* _ := print "That square is already taken. Try again." in
                      io_ret None
                    else io_ret (Some index)
              end
          end
    end.

(** [get_player_move], to [fuel] passes of its loop. *)
Fixpoint get_player_move_loop (fuel : nat) (b : board) : io nat :=
  match fuel with
  | O => fun _ => Exhausted
  | S fuel' =>
      let* line := input "Choose your move (row,col) e.g. 1,3: " in
      let* answer := read_move b line in
      match answer with
      | Some index => io_ret index
      | None => get_player_move_loop fuel' b
      end
  end.

(** Every pass takes a line from the input, so one pass more than there
    are lines is never used up ([get_player_move_fuel] below). *)
Definition get_player_move (b : board) : io nat :=
  fun c => get_player_move_loop (S (length (stdin c))) b c.

(** [ask_play_again], to [fuel] passes of its loop. *)
Fixpoint ask_play_again_loop (fuel : nat) : io bool :=
  match fuel with
  | O => fun _ => Exhausted
  | S fuel' =>
      let* line := input "Play again? (y/n): " in
      let response := py_lower py (py_strip py line) in
      if bool_decide (response ∈ ["y"; "yes"]) then io_ret true
      else if bool_decide (response ∈ ["n"; "no"]) then io_ret false
      else
        let* _ := print "Please enter 'y' or 'n'." in
        ask_play_again_loop fuel'
  end.

Definition ask_play_again : io bool :=
  fun c => ask_play_again_loop (S (length (stdin c))) c.

(** The loop of [play_game], to [fuel] passes. *)
Fixpoint game_loop (fuel : nat) (b : board) (current_player : string) : io unit :=
  match fuel with
  | O => fun _ => Exhausted
  | S fuel' =>
      let* b' :=
        if String.eqb current_player PLAYER then
          let* move := get_player_move b in
          lift (make_move b move PLAYER)
        else
          let* _ := print "Computer is thinking..." in
          let* r := lift (get_computer_move b) in
          let '(b1, move) := r in
          lift (make_move b1 move COMPUTER) in
      let* _ := display_board b' in
      let* won := lift (check_win b' current_player) in
      if won then
        let winner := if String.eqb current_player PLAYER then "You" else "Computer" in
        print (winner ++ " win" ++ (if String.eqb winner "Computer" then "s" else "") ++ "!")
      else if check_draw b' then print "It's a draw!"
      else
        game_loop fuel' b' (if String.eqb current_player PLAYER then COMPUTER else PLAYER)
  end.

(** [play_game]: every pass fills a square of the nine, so ten passes are
    never used up ([play_game_ends] below). *)
Definition play_game : io unit :=
  let b := empty_board in
  let* _ := print "Welcome to Tic-Tac-Toe! You are X, the computer is O." in
  let* _ := display_board b in
  game_loop 10 b PLAYER.

(** The loop of [main], to [fuel] rounds. *)
Fixpoint main_loop (fuel : nat) : io unit :=
  match fuel with
  | O => fun _ => Exhausted
  | S fuel' =>
      let* _ := play_game in
      let* again := ask_play_again in
      if negb again then print "Thanks for playing!"
      else main_loop fuel'
  end.

(** [main]: every round takes a line from the input, so one round more
    than there are lines is never used up ([main_ends] below). *)
Definition main : io unit :=
  fun c => main_loop (S (length (stdin c))) c.

End Dialogue.

(** What the program does with text made of the digits 1 to 3 and the
    comma: [strip] finds nothing to remove, [isdigit] holds of each digit
    and [int] reads its value. *)
Definition digit_text (n : nat) : string :=
  match n with
  | 1 => "1"
  | 2 => "2"
  | _ => "3"
  end.

Definition reads_digits (py : str_methods) : Prop :=
  ∀ r c, 1 ≤ r ≤ 3 → 1 ≤ c ≤ 3 →
    py_strip py (digit_text r ++ "," ++ digit_text c)%string
      = (digit_text r ++ "," ++ digit_text c)%string ∧
    py_strip py (digit_text r) = digit_text r ∧
    py_isdigit py (digit_text r) = true ∧
    py_int py (digit_text r) = Some (Z.of_nat r).

(** ** Vocabulary of the further properties *)

(** How many cells hold [symbol]. *)
Definition count_cells (symbol : string) (b : board) : nat :=
  length (List.filter (String.eqb symbol) b).

(** The search values the position, with the given side to move, at a win
    for the computer. *)
Definition holds_win (m : bool) (b : board) : Prop :=
  ∃ mv, search m b = Ok (b, (Fin 1, mv)).

(** What the loop of [play_game] maintains from a position that the search
    values at a win. *)
Definition win_inv (b : board) (st : status) : Prop :=
  match st with
  | Running p => (p = PLAYER ∧ holds_win false b) ∨ (p = COMPUTER ∧ holds_win true b)
  | Won w => w = COMPUTER
  | Drawn => False
  end.

Section Continuations.

Variable turn : board → string → board → status → Prop.

(** [continues n b st b' st']: [n] passes lead from board [b] in status
    [st] to board [b'] in status [st']. *)
Inductive continues : nat → board → status → board → status → Prop :=
  | continues_here b st : continues 0 b st b st
  | continues_turn n b p b1 st1 b' st' :
      turn b p b1 st1 → continues n b1 st1 b' st' →
      continues (S n) b (Running p) b' st'.

End Continuations.

(** ** Vocabulary of the properties of the dialogue *)

(** What [play_game] prints when the human has won. *)
Definition you_win : string := "You win!" ++ newline.

(** From console [c] to console [c'] lines were read from the front of the
    input and text was added at the end of the output, none of it the
    announcement of a win of the human. *)
Definition quietly (c c' : console) : Prop :=
  (∃ used, stdin c = used ++ stdin c') ∧
  (∃ out, stdout c' = stdout c ++ out ∧ you_win ∉ out).

(** The ways in which the dialogue lets an exception escape: the input has
    run out, or [int] has refused a text that [isdigit] accepted. *)
Definition gives_up (py : str_methods) (e : exception) (c' : console) : Prop :=
  (e = PyEOFError ∧ stdin c' = []) ∨
  (e = PyValueError ∧ ∃ text, py_isdigit py text = true ∧ py_int py text = None).

(** What is known of a call once it is over; a call cut off by its fuel
    satisfies nothing. *)
Definition post {A : Type} (r : run A) (Q : A → console → Prop)
    (E : exception → console → Prop) : Prop :=
  match r with
  | Returned a c' => Q a c'
  | Raised e c' => E e c'
  | Exhausted => False
  end.

(** The four answers that [ask_play_again] takes. *)
Definition answers (py : str_methods) (line : string) : bool :=
  bool_decide (py_lower py (py_strip py line) ∈ ["y"; "yes"; "n"; "no"]).

(** What [ask_play_again] writes for the lines it does not take. *)
Definition nagging (lines : list string) : list string :=
  flat_map
    (λ _, ["Play again? (y/n): "; "Please enter 'y' or 'n'." ++ newline])%string
    lines.

(** The methods on text of the ASCII range: white space is the space and
    the control characters 9 to 13 and 28 to 31, the digits are 0 to 9. *)
Definition is_space (a : Ascii.ascii) : bool :=
  let n := Ascii.nat_of_ascii a in
  ((9 <=? n) && (n <=? 13)) || ((28 <=? n) && (n <=? 32)).

Fixpoint lstrip (s : string) : string :=
  match s with
  | EmptyString => EmptyString
  | String a rest => if is_space a then lstrip rest else s
  end.

Fixpoint rstrip (s : string) : string :=
  match s with
  | EmptyString => EmptyString
  | String a rest =>
      match rstrip rest with
      | EmptyString => if is_space a then EmptyString else String a EmptyString
      | kept => String a kept
      end
  end.

Definition lower_char (a : Ascii.ascii) : Ascii.ascii :=
  let n := Ascii.nat_of_ascii a in
  if (65 <=? n) && (n <=? 90) then Ascii.ascii_of_nat (n + 32) else a.

Fixpoint lower_text (s : string) : string :=
  match s with
  | EmptyString => EmptyString
  | String a rest => String (lower_char a) (lower_text rest)
  end.

Definition is_digit (a : Ascii.ascii) : bool :=
  let n := Ascii.nat_of_ascii a in (48 <=? n) && (n <=? 57).

Fixpoint all_digits (s : string) : bool :=
  match s with
  | EmptyString => true
  | String a rest => is_digit a && all_digits rest
  end.

Fixpoint decimal (acc : Z) (s : string) : Z :=
  match s with
  | EmptyString => acc
  | String a rest => decimal (10 * acc + Z.of_nat (Ascii.nat_of_ascii a - 48)) rest
  end.

Definition ascii_methods : str_methods := {|
  py_strip := fun s => rstrip (lstrip s);
  py_lower := lower_text;
  py_isdigit := fun s => negb (String.eqb s "") && all_digits s;
  py_int := fun s => if negb (String.eqb s "") && all_digits s
                     then Some (decimal 0 s) else None
|}.

(** From console [c] to console [c'] nothing announced a win of the human,
    and the last text written is one of [lasts]. *)
Definition ends_with (lasts : list string) (c c' : console) : Prop :=
  ∃ c1 last,
    quietly c c1 ∧ stdin c' = stdin c1 ∧ stdout c' = stdout c1 ++ [last] ∧
    last ∈ lasts.

(** How a round ends, and how the program does. *)
Definition round_ends : list string :=
  [("Computer wins!" ++ newline)%string; ("It's a draw!" ++ newline)%string].

Definition program_ends : list string :=
  [("Thanks for playing!" ++ newline)%string].

(** * Board queries *)

Lemma get_item_lookup (b : board) i c : get_item b i = Ok c ↔ b !! i = Some c.
Proof. unfold get_item. destruct (b !! i); split; congruence. Qed.

Lemma get_item_in_range (b : board) i :
  i < length b → ∃ c, get_item b i = Ok c ∧ b !! i = Some c.
Proof.
  intros Hi. destruct (lookup_lt_is_Some_2 b i Hi) as [c Hc].
  exists c. split; [by apply get_item_lookup | done].
Qed.

Lemma all_cells_spec (b : board) symbol line :
  Forall (λ i, i < length b) line →
  ∃ w, all_cells b symbol line = Ok w ∧
       (w = true ↔ Forall (λ i, b !! i = Some symbol) line).
Proof.
  induction 1 as [|i line Hi _ IH]; simpl.
  - exists true. split; [done|]. split; [constructor | done].
  - destruct (get_item_in_range b i Hi) as (c & -> & Hc). simpl.
    destruct (String.eqb_spec c symbol) as [->|Hne].
    + destruct IH as (w & -> & Hw). exists w. split; [done|].
      rewrite Hw. split; [by constructor|]. by inversion 1.
    + exists false. split; [done|]. split; [done|].
      inversion 1; congruence.
Qed.

Lemma any_line_spec (b : board) symbol lines :
  Forall (λ '(i, j, k), i < length b ∧ j < length b ∧ k < length b) lines →
  ∃ w, any_line b symbol lines = Ok w ∧
       (w = true ↔ Exists (λ '(i, j, k), b !! i = Some symbol ∧
                             b !! j = Some symbol ∧ b !! k = Some symbol) lines).
Proof.
  induction 1 as [|[[i j] k] lines (Hi & Hj & Hk) _ IH].
  - exists false. split; [done|]. split; [done | inversion 1].
  - cbn [any_line].
    destruct (all_cells_spec b symbol [i; j; k]) as (w & -> & Hw).
    { repeat constructor; done. }
    cbn [bind]. destruct w.
    + exists true. split; [done|]. split; [|done]. intros _.
      apply Exists_cons_hd. destruct Hw as [Hw _].
      specialize (Hw eq_refl).
      inversion Hw as [|? ? ? Hw1]; subst. inversion Hw1 as [|? ? ? Hw2]; subst.
      inversion Hw2; subst. done.
    + destruct IH as (w & -> & IH). exists w. split; [done|].
      rewrite IH. split; [by apply Exists_cons_tl|].
      inversion 1 as [? ? Hhd|]; subst; [|done].
      destruct Hhd as (H1 & H2 & H3).
      destruct Hw as [_ Hw]. discriminate Hw. repeat constructor; done.
Qed.

Lemma win_lines_in_range (b : board) :
  length b = 9 →
  Forall (λ '(i, j, k), i < length b ∧ j < length b ∧ k < length b) win_lines.
Proof. intros ->. unfold win_lines. repeat constructor. Qed.

(** On a nine-cell board [check_win] returns, and returns [true] exactly
    when some line is held. *)
Lemma check_win_spec (b : board) symbol :
  length b = 9 →
  ∃ w, check_win b symbol = Ok w ∧ (w = true ↔ has_line b symbol).
Proof.
  intros Hlen.
  destruct (any_line_spec b symbol win_lines (win_lines_in_range b Hlen))
    as (w & Hw & Hiff).
  exists w. split; [done|]. rewrite Hiff, Exists_exists. unfold has_line.
  split.
  - intros ([[i j] k] & Hin & H). exists i, j, k. done.
  - intros (i & j & k & Hin & H). exists (i, j, k). done.
Qed.

Lemma moves_from_cons n cell (b : board) :
  moves_from n (cell :: b) =
  if String.eqb cell EMPTY then n :: moves_from (S n) b else moves_from (S n) b.
Proof. unfold moves_from. simpl. by destruct (String.eqb cell EMPTY). Qed.

Lemma elem_of_moves_from (b : board) n i :
  i ∈ moves_from n b ↔ n ≤ i ∧ b !! (i - n) = Some EMPTY.
Proof.
  revert n. induction b as [|cell b IH]; intros n.
  - split; [inversion 1 | by intros [_ ?]].
  - rewrite moves_from_cons.
    assert (Hshift : i ∈ moves_from (S n) b ↔
              n < i ∧ (cell :: b) !! (i - n) = Some EMPTY).
    { rewrite IH. split.
      - intros [Hle Hc]. split; [lia|].
        replace (i - n) with (S (i - S n)) by lia. done.
      - intros [Hlt Hc]. split; [lia|].
        replace (i - n) with (S (i - S n)) in Hc by lia. done. }
    destruct (String.eqb_spec cell EMPTY) as [->|Hne].
    + rewrite elem_of_cons, Hshift. split.
      * intros [->|[? ?]]; [|split; [lia | done]].
        split; [lia|]. by rewrite Nat.sub_diag.
      * intros [Hle Hc]. destruct (decide (i = n)) as [->|]; [by left|].
        right. split; [lia | done].
    + rewrite Hshift. split.
      * intros [? ?]. split; [lia | done].
      * intros [Hle Hc]. split; [|done].
        destruct (decide (i = n)) as [->|]; [|lia].
        rewrite Nat.sub_diag in Hc. simpl in Hc. congruence.
Qed.

Lemma moves_from_sorted (b : board) n : StronglySorted lt (moves_from n b).
Proof.
  revert n. induction b as [|cell b IH]; intros n; [constructor|].
  rewrite moves_from_cons. destruct (String.eqb cell EMPTY); [|apply IH].
  constructor; [apply IH|]. apply Forall_forall. intros i Hi.
  apply elem_of_moves_from in Hi. lia.
Qed.

Lemma elem_of_available_moves (b : board) i :
  i ∈ get_available_moves b ↔ b !! i = Some EMPTY.
Proof.
  change (get_available_moves b) with (moves_from 0 b).
  rewrite elem_of_moves_from, Nat.sub_0_r. split; [by intros [_ ?]|].
  intros ?. split; [lia | done].
Qed.

Lemma available_moves_sorted (b : board) : StronglySorted lt (get_available_moves b).
Proof. apply (moves_from_sorted b 0). Qed.

Lemma check_draw_false (b : board) : check_draw b = false ↔ EMPTY ∈ b.
Proof.
  unfold check_draw. induction b as [|cell b IH]; simpl.
  - split; [done | inversion 1].
  - rewrite elem_of_cons. destruct (String.eqb_spec cell EMPTY) as [->|Hne]; simpl.
    + split; [by left | done].
    + rewrite IH. split; [by right|]. intros [?|?]; [congruence | done].
Qed.

Lemma check_draw_true (b : board) : check_draw b = true ↔ EMPTY ∉ b.
Proof.
  rewrite <- check_draw_false. destruct (check_draw b); split; congruence.
Qed.

Lemma available_moves_nil (b : board) : get_available_moves b = [] ↔ EMPTY ∉ b.
Proof.
  split.
  - intros Hnil Hin. apply list_elem_of_lookup in Hin as [i Hi].
    apply elem_of_available_moves in Hi. rewrite Hnil in Hi. inversion Hi.
  - intros Hnot. destruct (get_available_moves b) as [|i l] eqn:E; [done|].
    exfalso. apply Hnot. apply list_elem_of_lookup. exists i.
    apply elem_of_available_moves. rewrite E. by left.
Qed.

(** Filling an Empty cell with a mark removes exactly one candidate. *)
Lemma moves_from_insert (b : board) n i v :
  b !! i = Some EMPTY → v ≠ EMPTY →
  S (length (moves_from n (<[i:=v]> b))) = length (moves_from n b).
Proof.
  revert n i. induction b as [|cell b IH]; intros n i Hi Hv; [done|].
  destruct i as [|i]; simpl in Hi.
  - injection Hi as ->. cbn [insert list_insert]. rewrite !moves_from_cons.
    destruct (String.eqb_spec EMPTY EMPTY); [|done].
    destruct (String.eqb_spec v EMPTY); done.
  - simpl. rewrite !moves_from_cons.
    destruct (String.eqb cell EMPTY); simpl; by rewrite <- (IH (S n) i Hi Hv).
Qed.

Lemma count_empty_insert (b : board) i v :
  b !! i = Some EMPTY → v ≠ EMPTY →
  S (count_empty (<[i:=v]> b)) = count_empty b.
Proof. apply (moves_from_insert b 0). Qed.

Lemma mark_of_not_empty m : mark_of m ≠ EMPTY.
Proof. by destruct m. Qed.

(** ** The sample boards of the specification *)

Example check_win_row :
  check_win ["X"; "X"; "X"; " "; " "; " "; " "; " "; " "] PLAYER = Ok true.
Proof. reflexivity. Qed.

Example check_win_diagonal :
  check_win ["X"; " "; " "; " "; "X"; " "; " "; " "; "X"] PLAYER = Ok true.
Proof. reflexivity. Qed.

Example check_win_diagonal_other_side :
  check_win ["X"; " "; "O"; " "; "X"; " "; "O"; " "; "X"] PLAYER = Ok true ∧
  check_win ["X"; " "; "O"; " "; "X"; " "; "O"; " "; "X"] COMPUTER = Ok false.
Proof. split; reflexivity. Qed.

Example check_draw_one_empty :
  check_draw ["X"; "O"; "X"; "X"; "O"; "O"; "O"; "X"; " "] = false.
Proof. reflexivity. Qed.

Example drawn_board_is_a_draw :
  check_draw drawn_board = true ∧
  check_win drawn_board PLAYER = Ok false ∧
  check_win drawn_board COMPUTER = Ok false.
Proof. repeat split. Qed.

(** A list shorter than nine cells: the read of a missing cell raises, and
    only when the cells before it on the line did match. *)
Example check_win_short_board :
  check_win ["X"; "X"] PLAYER = IndexError ∧ check_win ["O"; "X"] PLAYER = IndexError ∧
  check_win [] PLAYER = IndexError.
Proof. repeat split. Qed.

(** * The order on scores *)

Lemma score_gt_trans a b c :
  score_gt a b = true → score_gt b c = true → score_gt a c = true.
Proof.
  destruct a, b, c; simpl; try done.
  rewrite !Z.ltb_lt. lia.
Qed.

Lemma score_gt_above a b x :
  score_gt x b = true → score_gt a b = false → score_gt x a = true.
Proof.
  destruct a, b, x; simpl; try done.
  rewrite Z.ltb_lt, Z.ltb_ge, Z.ltb_lt. lia.
Qed.

Lemma score_gt_below a b x :
  score_gt b x = true → score_gt b a = false → score_gt a x = true.
Proof.
  destruct a, b, x; simpl; try done.
  rewrite Z.ltb_lt, Z.ltb_ge, Z.ltb_lt. lia.
Qed.

Lemma score_gt_irrefl a : score_gt a a = false.
Proof. destruct a; simpl; try done. apply Z.ltb_irrefl. Qed.

Lemma beats_trans m a b c :
  beats m a b = true → beats m b c = true → beats m a c = true.
Proof.
  destruct m; simpl; unfold score_lt; [apply score_gt_trans|].
  intros ? ?. by apply (score_gt_trans c b a).
Qed.

Lemma beats_past m a b x :
  beats m x b = true → beats m a b = false → beats m x a = true.
Proof.
  destruct m; simpl; unfold score_lt; [apply score_gt_above | apply score_gt_below].
Qed.

Lemma beats_irrefl m a : beats m a a = false.
Proof. destruct m; apply score_gt_irrefl. Qed.

Lemma beats_initial m z : beats m (Fin z) (if m then NegInf else PosInf) = true.
Proof. by destruct m. Qed.

(** The two [if] statements amount to one test with the comparison of the
    side to move. *)
Lemma update_best_beats m sc move best :
  update_best m sc move best =
  if beats m sc (fst best) then (sc, Some move) else best.
Proof.
  unfold update_best, beats. destruct m; simpl.
  - by destruct (score_gt sc (fst best)).
  - done.
Qed.

(** * The board is handed back as it was received *)

Ltac bind_inv H :=
  match type of H with
  | bind ?r _ = Ok _ =>
      let E := fresh "E" in destruct r eqn:E; cbn [bind] in H; [|discriminate H..]
  end.

Lemma set_item_ok (b : board) i v b' :
  set_item b i v = Ok b' ↔ i < length b ∧ b' = <[i:=v]> b.
Proof.
  unfold set_item. destruct (Nat.ltb_spec i (length b)); split.
  - intros [= <-]. done.
  - intros [_ ->]. done.
  - done.
  - intros [? _]. lia.
Qed.

Lemma place_and_take_back (b : board) i v :
  b !! i = Some EMPTY → <[i:=EMPTY]> (<[i:=v]> b) = b.
Proof. intros Hi. rewrite list_insert_insert_eq. by apply list_insert_id. Qed.

Section Frame.

Variable rec : bool → board → result outcome.
Hypothesis rec_frame : ∀ flag b b' r, rec flag b = Ok (b', r) → b' = b.

Lemma try_move_frame m (b : board) i b' sc :
  b !! i = Some EMPTY → try_move rec m b i = Ok (b', sc) → b' = b.
Proof.
  intros Hi H. unfold try_move in H.
  bind_inv H. apply set_item_ok in E as [_ ->].
  bind_inv H. destruct a as [b2 [s mv]].
  apply rec_frame in E as ->.
  bind_inv H. apply set_item_ok in E as [_ ->].
  injection H as <- _. by apply place_and_take_back.
Qed.

Lemma search_loop_frame m moves (b : board) best b' r :
  Forall (λ i, b !! i = Some EMPTY) moves →
  search_loop rec m moves b best = Ok (b', r) → b' = b.
Proof.
  intros Hmoves. revert best.
  induction Hmoves as [|i moves Hi _ IH]; intros best H; simpl in H.
  - by injection H as <- _.
  - bind_inv H. destruct a as [b1 sc].
    apply try_move_frame in E as ->; [|done]. by apply IH in H.
Qed.

Lemma minimax_body_frame m (b : board) b' r :
  minimax_body rec m b = Ok (b', r) → b' = b.
Proof.
  unfold minimax_body. intros H.
  bind_inv H. destruct a; [by injection H as <- _|].
  bind_inv H. destruct a; [by injection H as <- _|].
  destruct (check_draw b); [by injection H as <- _|].
  eapply search_loop_frame; [|done].
  apply Forall_forall. intros i. apply elem_of_available_moves.
Qed.

End Frame.

Lemma minimax_frame fuel m (b : board) b' r :
  minimax fuel m b = Ok (b', r) → b' = b.
Proof.
  revert m b b' r. induction fuel as [|fuel IH]; intros m b b' r; [done|].
  simpl. apply minimax_body_frame. apply IH.
Qed.

(** * The loop as a fold over the candidates *)

Lemma search_loop_fold rec m (b : board) sc moves best :
  Forall (λ i, try_move rec m b i = Ok (b, sc i)) moves →
  search_loop rec m moves b best = Ok (b, pick_best m sc moves best).
Proof.
  intros Hmoves. revert best.
  induction Hmoves as [|i moves Hi _ IH]; intros best; [done|].
  cbn [search_loop]. rewrite Hi. cbn [bind]. apply IH.
Qed.

Lemma pick_best_cons m sc a rest best :
  pick_best m sc (a :: rest) best = pick_best m sc rest (update_best m (sc a) a best).
Proof. done. Qed.

(** Either no candidate beat the initial score, or the result is the first
    candidate of the best score: it beats every candidate before it and no
    later candidate beats it. *)
Lemma pick_best_spec m sc moves best0 mv0 :
  (pick_best m sc moves (best0, mv0) = (best0, mv0) ∧
   Forall (λ i, beats m (sc i) best0 = false) moves) ∨
  (∃ l1 j l2, moves = l1 ++ j :: l2 ∧
     pick_best m sc moves (best0, mv0) = (sc j, Some j) ∧
     beats m (sc j) best0 = true ∧
     Forall (λ i, beats m (sc j) (sc i) = true) l1 ∧
     Forall (λ i, beats m (sc i) (sc j) = false) l2).
Proof.
  revert best0 mv0. induction moves as [|a rest IH]; intros best0 mv0.
  - left. split; [done | constructor].
  - rewrite pick_best_cons, update_best_beats. cbn [fst].
    destruct (beats m (sc a) best0) eqn:Ha.
    + right. destruct (IH (sc a) (Some a)) as [[Heq Hall]|(l1 & j & l2 & -> & Heq & Hj & H1 & H2)].
      * exists [], a, rest. rewrite Heq. repeat split; [done | constructor | done].
      * exists (a :: l1), j, l2. rewrite Heq. repeat split; try done.
        -- by apply (beats_trans m _ (sc a)).
        -- by constructor.
    + destruct (IH best0 mv0) as [[Heq Hall]|(l1 & j & l2 & -> & Heq & Hj & H1 & H2)].
      * left. split; [done | by constructor].
      * right. exists (a :: l1), j, l2. rewrite Heq. repeat split; try done.
        constructor; [|done]. by apply (beats_past m _ best0).
Qed.

(** In an ascending list the candidates below [j] are those listed before it. *)
Lemma sorted_before (l1 l2 : list nat) j i :
  StronglySorted lt (l1 ++ j :: l2) → i ∈ l1 ++ j :: l2 → i < j → i ∈ l1.
Proof.
  induction l1 as [|a l1 IH]; simpl; intros Hs Hin Hlt.
  - apply StronglySorted_inv in Hs as [_ Hall].
    apply elem_of_cons in Hin as [->|Hin]; [lia|].
    rewrite Forall_forall in Hall. apply Hall in Hin. lia.
  - apply StronglySorted_inv in Hs as [Hs _].
    apply elem_of_cons in Hin as [->|Hin]; [by left|].
    right. by apply IH.
Qed.

(** * The search returns *)

Section Total.

Variable rec : bool → board → result outcome.
Variable n : nat.
Hypothesis rec_total : ∀ flag (b : board),
  length b = 9 → count_empty b < n →
  ∃ z mv, rec flag b = Ok (b, (Fin z, mv)) ∧ in_range z.

Lemma try_move_total m (b : board) i :
  length b = 9 → count_empty b ≤ n → b !! i = Some EMPTY →
  ∃ z, try_move rec m b i = Ok (b, Fin z) ∧ in_range z.
Proof.
  intros Hlen Hcount Hi. unfold try_move. fold (mark_of m).
  pose proof (lookup_lt_Some _ _ _ Hi) as Hlt.
  assert (set_item b i (mark_of m) = Ok (<[i:=mark_of m]> b)) as ->.
  { by apply set_item_ok. }
  cbn [bind].
  destruct (rec_total (negb m) (<[i:=mark_of m]> b)) as (z & mv & -> & Hz).
  { by rewrite length_insert. }
  { pose proof (count_empty_insert b i (mark_of m) Hi (mark_of_not_empty m)). lia. }
  cbn [bind].
  assert (set_item (<[i:=mark_of m]> b) i EMPTY = Ok b) as ->.
  { apply set_item_ok. rewrite length_insert. split; [done|].
    symmetry. by apply place_and_take_back. }
  exists z. done.
Qed.

Lemma score_at_total m (b : board) i :
  length b = 9 → count_empty b ≤ n → b !! i = Some EMPTY →
  try_move rec m b i = Ok (b, score_at rec m b i) ∧
  ∃ z, score_at rec m b i = Fin z ∧ in_range z.
Proof.
  intros Hlen Hcount Hi.
  destruct (try_move_total m b i Hlen Hcount Hi) as (z & Hz & Hr).
  unfold score_at. rewrite Hz. split; [done|]. by exists z.
Qed.

(** Past the terminal checks the body returns the board with the pick
    of the fold. *)
Lemma minimax_body_loop m (b : board) :
  length b = 9 → count_empty b ≤ n →
  check_win b COMPUTER = Ok false → check_win b PLAYER = Ok false →
  check_draw b = false →
  minimax_body rec m b =
  Ok (b, pick_best m (score_at rec m b) (get_available_moves b)
           (if m then NegInf else PosInf, None)).
Proof.
  intros Hlen Hcount HO HX Hd. unfold minimax_body.
  rewrite HO. cbn [bind]. rewrite HX. cbn [bind]. rewrite Hd.
  apply search_loop_fold. apply Forall_forall. intros i Hi.
  apply elem_of_available_moves in Hi.
  by destruct (score_at_total m b i Hlen Hcount Hi).
Qed.

(** The pick is the first candidate of the best score. *)
Lemma pick_best_first m (b : board) :
  length b = 9 → count_empty b ≤ n → EMPTY ∈ b →
  ∃ l1 j l2 z,
    get_available_moves b = l1 ++ j :: l2 ∧
    pick_best m (score_at rec m b) (get_available_moves b)
      (if m then NegInf else PosInf, None) = (Fin z, Some j) ∧
    score_at rec m b j = Fin z ∧ in_range z ∧
    Forall (λ i, beats m (Fin z) (score_at rec m b i) = true) l1 ∧
    Forall (λ i, beats m (score_at rec m b i) (Fin z) = false) l2.
Proof.
  intros Hlen Hcount Hin.
  assert (Hsc : ∀ i, i ∈ get_available_moves b →
            ∃ z, score_at rec m b i = Fin z ∧ in_range z).
  { intros i Hi. apply elem_of_available_moves in Hi.
    by destruct (score_at_total m b i Hlen Hcount Hi). }
  destruct (pick_best_spec m (score_at rec m b) (get_available_moves b)
              (if m then NegInf else PosInf) None)
    as [[_ Hall]|(l1 & j & l2 & Heq & Hpick & _ & H1 & H2)].
  - exfalso. destruct (get_available_moves b) as [|i l] eqn:E.
    + by apply available_moves_nil in E.
    + apply Forall_cons in Hall as [Hi _].
      destruct (Hsc i) as (z & Hz & _); [by left|].
      rewrite Hz, beats_initial in Hi. done.
  - destruct (Hsc j) as (z & Hz & Hr).
    { rewrite Heq. apply elem_of_app. right. by left. }
    exists l1, j, l2, z. rewrite Hpick, <- Hz. done.
Qed.

Lemma minimax_body_total m (b : board) :
  length b = 9 → count_empty b ≤ n →
  ∃ z mv, minimax_body rec m b = Ok (b, (Fin z, mv)) ∧ in_range z.
Proof.
  intros Hlen Hcount.
  destruct (check_win_spec b COMPUTER Hlen) as (wO & HO & _).
  destruct (check_win_spec b PLAYER Hlen) as (wX & HX & _).
  destruct wO.
  { exists 1%Z, None. unfold minimax_body. rewrite HO. unfold in_range. auto. }
  destruct wX.
  { exists (-1)%Z, None. unfold minimax_body. rewrite HO. cbn [bind].
    rewrite HX. unfold in_range. auto. }
  destruct (check_draw b) eqn:Hd.
  { exists 0%Z, None. unfold minimax_body. rewrite HO. cbn [bind].
    rewrite HX. cbn [bind]. rewrite Hd. unfold in_range. auto. }
  rewrite minimax_body_loop by done.
  apply check_draw_false in Hd.
  destruct (pick_best_first m b Hlen Hcount Hd) as (l1 & j & l2 & z & _ & -> & _ & Hr & _).
  by exists z, (Some j).
Qed.

End Total.

Lemma minimax_total fuel m (b : board) :
  length b = 9 → count_empty b < fuel →
  ∃ z mv, minimax fuel m b = Ok (b, (Fin z, mv)) ∧ in_range z.
Proof.
  revert m b. induction fuel as [|fuel IH]; intros m b Hlen Hcount; [lia|].
  cbn [minimax]. apply (minimax_body_total _ fuel); [|done|lia].
  intros flag b1 Hlen1 Hcount1. by apply IH.
Qed.

(** * The depth of the recursion does not matter once it suffices *)

Lemma moves_from_length (b : board) n : length (moves_from n b) ≤ length b.
Proof.
  revert n. induction b as [|cell b IH]; intros n; [done|].
  rewrite moves_from_cons. specialize (IH (S n)).
  destruct (String.eqb cell EMPTY); simpl; lia.
Qed.

Lemma count_empty_le_length (b : board) : count_empty b ≤ length b.
Proof. apply (moves_from_length b 0). Qed.

(** The depth given to [minimax] by [search] is never used up, whatever
    the list passed as the board: the model adds no failure of its own. *)
Lemma all_cells_fuel (b : board) symbol line : all_cells b symbol line ≠ OutOfFuel.
Proof.
  induction line as [|i line IH]; [done|]. simpl. unfold get_item.
  destruct (b !! i) as [c|]; [|done]. simpl. by destruct (String.eqb c symbol).
Qed.

Lemma any_line_fuel (b : board) symbol lines : any_line b symbol lines ≠ OutOfFuel.
Proof.
  induction lines as [|[[i j] k] lines IH]; [done|]. cbn [any_line].
  pose proof (all_cells_fuel b symbol [i; j; k]) as Hcells.
  destruct (all_cells b symbol [i; j; k]) as [[]| |]; done.
Qed.

Section Depth.

Variable rec : bool → board → result outcome.
Variable n : nat.
Hypothesis rec_frame : ∀ flag b b' r, rec flag b = Ok (b', r) → b' = b.
Hypothesis rec_fuel : ∀ flag (b : board), count_empty b < n → rec flag b ≠ OutOfFuel.

Lemma try_move_fuel m (b : board) i :
  count_empty b ≤ n → b !! i = Some EMPTY → try_move rec m b i ≠ OutOfFuel.
Proof.
  intros Hcount Hi. unfold try_move. fold (mark_of m).
  assert (set_item b i (mark_of m) = Ok (<[i:=mark_of m]> b)) as ->.
  { apply set_item_ok. split; [|done]. by apply lookup_lt_Some in Hi. }
  cbn [bind].
  pose proof (count_empty_insert b i (mark_of m) Hi (mark_of_not_empty m)) as Hdec.
  pose proof (rec_fuel (negb m) (<[i:=mark_of m]> b)) as Hrec.
  destruct (rec (negb m) (<[i:=mark_of m]> b)) as [[b2 [sc mv]]| |] eqn:E;
    [|done|exfalso; apply Hrec; [lia|done]].
  cbn [bind]. unfold set_item. by destruct (i <? length b2).
Qed.

Lemma search_loop_fuel m moves (b : board) best :
  count_empty b ≤ n → Forall (λ i, b !! i = Some EMPTY) moves →
  search_loop rec m moves b best ≠ OutOfFuel.
Proof.
  intros Hcount Hmoves. revert best.
  induction Hmoves as [|i moves Hi _ IH]; intros best; [done|].
  cbn [search_loop]. pose proof (try_move_fuel m b i Hcount Hi) as Htry.
  destruct (try_move rec m b i) as [[b' sc]| |] eqn:E; [|done..].
  apply (try_move_frame rec rec_frame) in E as ->; [|done]. apply IH.
Qed.

Lemma minimax_body_fuel m (b : board) :
  count_empty b ≤ n → minimax_body rec m b ≠ OutOfFuel.
Proof.
  intros Hcount. unfold minimax_body, check_win.
  pose proof (any_line_fuel b COMPUTER win_lines) as HO.
  destruct (any_line b COMPUTER win_lines) as [[]| |]; [done| |done..].
  cbn [bind]. pose proof (any_line_fuel b PLAYER win_lines) as HX.
  destruct (any_line b PLAYER win_lines) as [[]| |]; [done| |done..].
  cbn [bind]. destruct (check_draw b); [done|].
  apply search_loop_fuel; [done|].
  apply Forall_forall. intros i. apply elem_of_available_moves.
Qed.

End Depth.

Lemma minimax_fuel_suffices fuel m (b : board) :
  count_empty b < fuel → minimax fuel m b ≠ OutOfFuel.
Proof.
  revert m b. induction fuel as [|fuel IH]; intros m b Hcount; [lia|].
  cbn [minimax]. apply (minimax_body_fuel _ fuel); [| |lia].
  - intros flag b0 b' r. apply minimax_frame.
  - intros flag b0. apply IH.
Qed.

Lemma search_fuel_suffices m (b : board) : search m b ≠ OutOfFuel.
Proof.
  apply minimax_fuel_suffices. pose proof (count_empty_le_length b). lia.
Qed.

Lemma try_move_inv rec m (b : board) i b' sc :
  try_move rec m b i = Ok (b', sc) →
  ∃ b2 mv, rec (negb m) (<[i:=mark_of m]> b) = Ok (b2, (sc, mv)).
Proof.
  unfold try_move. fold (mark_of m). intros H.
  bind_inv H. apply set_item_ok in E as [_ ->].
  bind_inv H. destruct a as [b2 [s mv]].
  bind_inv H. injection H as _ <-. by exists b2, mv.
Qed.

Lemma pick_best_ext m sc1 sc2 moves best :
  Forall (λ i, sc1 i = sc2 i) moves →
  pick_best m sc1 moves best = pick_best m sc2 moves best.
Proof.
  intros H. revert best. induction H as [|i moves Hi _ IH]; intros best; [done|].
  rewrite !pick_best_cons, Hi. apply IH.
Qed.

Lemma minimax_fuel_irrelevant fuel1 fuel2 m (b : board) :
  length b = 9 → count_empty b < fuel1 → count_empty b < fuel2 →
  minimax fuel1 m b = minimax fuel2 m b.
Proof.
  revert fuel2 m b.
  induction fuel1 as [|fuel1 IH]; intros fuel2 m b Hlen H1 H2; [lia|].
  destruct fuel2 as [|fuel2]; [lia|]. cbn [minimax].
  destruct (check_win_spec b COMPUTER Hlen) as (wO & HO & _).
  destruct (check_win_spec b PLAYER Hlen) as (wX & HX & _).
  destruct wO; [unfold minimax_body; by rewrite HO|].
  destruct wX; [unfold minimax_body; rewrite HO; cbn [bind]; by rewrite HX|].
  destruct (check_draw b) eqn:Hd.
  { unfold minimax_body. rewrite HO. cbn [bind]. rewrite HX. cbn [bind]. by rewrite Hd. }
  rewrite (minimax_body_loop (minimax fuel1) fuel1); try done; try lia;
    [|intros; by apply minimax_total].
  rewrite (minimax_body_loop (minimax fuel2) fuel2); try done; try lia;
    [|intros; by apply minimax_total].
  do 2 f_equal. apply pick_best_ext, Forall_forall. intros i Hi.
  apply elem_of_available_moves in Hi.
  unfold score_at, try_move. fold (mark_of m).
  assert (set_item b i (mark_of m) = Ok (<[i:=mark_of m]> b)) as ->.
  { apply set_item_ok. split; [|done]. by apply lookup_lt_Some in Hi. }
  cbn [bind].
  rewrite (IH fuel2); [done| by rewrite length_insert | |].
  - pose proof (count_empty_insert b i (mark_of m) Hi (mark_of_not_empty m)). lia.
  - pose proof (count_empty_insert b i (mark_of m) Hi (mark_of_not_empty m)). lia.
Qed.

(** * The choice among the candidates *)

Lemma beats_asym m a b : beats m a b = true → beats m b a = false.
Proof.
  intros H. destruct (beats m b a) eqn:E; [|done].
  pose proof (beats_trans m a b a H E) as Haa. by rewrite beats_irrefl in Haa.
Qed.

(** On a board that is not terminal the search returns the candidate that
    is listed first among those of the best score. *)
Lemma minimax_choice fuel m (b : board) :
  length b = 9 → count_empty b ≤ fuel →
  check_win b COMPUTER = Ok false → check_win b PLAYER = Ok false → EMPTY ∈ b →
  ∃ z mv,
    minimax (S fuel) m b = Ok (b, (Fin z, Some mv)) ∧ in_range z ∧
    mv ∈ get_available_moves b ∧
    try_move (minimax fuel) m b mv = Ok (b, Fin z) ∧
    ∀ i sc, i ∈ get_available_moves b →
      try_move (minimax fuel) m b i = Ok (b, sc) →
      beats m sc (Fin z) = false ∧ (i < mv → sc ≠ Fin z).
Proof.
  intros Hlen Hcount HO HX Hin.
  assert (Htot : ∀ flag (b1 : board), length b1 = 9 → count_empty b1 < fuel →
            ∃ z mv, minimax fuel flag b1 = Ok (b1, (Fin z, mv)) ∧ in_range z).
  { intros. by apply minimax_total. }
  destruct (pick_best_first (minimax fuel) fuel Htot m b Hlen Hcount Hin)
    as (l1 & j & l2 & z & Heq & Hpick & Hj & Hr & H1 & H2).
  assert (Hjin : j ∈ get_available_moves b).
  { rewrite Heq. apply elem_of_app. right. by left. }
  exists z, j. cbn [minimax].
  rewrite (minimax_body_loop (minimax fuel) fuel Htot); try done;
    [|by apply check_draw_false].
  rewrite Hpick. split; [done|]. split; [done|]. split; [done|]. split.
  { apply elem_of_available_moves in Hjin.
    destruct (score_at_total (minimax fuel) fuel Htot m b j Hlen Hcount Hjin) as [Ht _].
    by rewrite Hj in Ht. }
  intros i sc Hi Hsc.
  assert (Hsci : score_at (minimax fuel) m b i = sc).
  { unfold score_at. by rewrite Hsc. }
  assert (Hbefore : i ∈ l1 → beats m (Fin z) sc = true).
  { intros Hl1. rewrite Forall_forall in H1. rewrite <- Hsci. by apply H1. }
  split.
  - rewrite Heq in Hi. apply elem_of_app in Hi as [Hi|Hi].
    + by apply beats_asym, Hbefore.
    + apply elem_of_cons in Hi as [->|Hi].
      * rewrite <- Hsci, Hj. apply beats_irrefl.
      * rewrite Forall_forall in H2. rewrite <- Hsci. by apply H2.
  - intros Hlt Heqsc.
    assert (Hl1 : i ∈ l1).
    { apply (sorted_before l1 l2 j); [|by rewrite <- Heq|done].
      rewrite <- Heq. apply available_moves_sorted. }
    apply Hbefore in Hl1. by rewrite Heqsc, beats_irrefl in Hl1.
Qed.

(** * The claims about the board queries *)

(** C7.  On every nine-cell board and for every symbol, [check_win] returns
    [True] exactly when one of the eight triples (three rows, three
    columns, two diagonals) holds that symbol in all three cells.  The
    function only reads the board: it returns a truth value and no board. *)
Theorem check_win_eight_lines (b : board) (symbol : string) :
  length b = 9 →
  ∃ w, check_win b symbol = Ok w ∧
    (w = true ↔
     Exists (λ '(i, j, k), b !! i = Some symbol ∧ b !! j = Some symbol ∧
                           b !! k = Some symbol)
       [(0, 1, 2); (3, 4, 5); (6, 7, 8); (0, 3, 6);
        (1, 4, 7); (2, 5, 8); (0, 4, 8); (2, 4, 6)]).
Proof.
  intros Hlen. apply (any_line_spec b symbol win_lines).
  by apply win_lines_in_range.
Qed.

Lemma check_win_eight_lines_witness :
  ∃ w, check_win ["X"; " "; "O"; " "; "X"; " "; "O"; " "; "X"] "X" = Ok w ∧
    (w = true ↔
     Exists (λ '(i, j, k),
        ["X"; " "; "O"; " "; "X"; " "; "O"; " "; "X"] !! i = Some "X" ∧
        ["X"; " "; "O"; " "; "X"; " "; "O"; " "; "X"] !! j = Some "X" ∧
        ["X"; " "; "O"; " "; "X"; " "; "O"; " "; "X"] !! k = Some "X")
       [(0, 1, 2); (3, 4, 5); (6, 7, 8); (0, 3, 6);
        (1, 4, 7); (2, 5, 8); (0, 4, 8); (2, 4, 6)]).
Proof.
  apply (check_win_eight_lines ["X"; " "; "O"; " "; "X"; " "; "O"; " "; "X"] "X").
  reflexivity.
Defined.

Lemma ascending_two_five (l : list nat) :
  StronglySorted lt l → (∀ i, i ∈ l ↔ i = 2 ∨ i = 5) → l = [2; 5].
Proof.
  intros Hs Hl.
  assert (H2 : 2 ∈ l) by (apply Hl; auto).
  assert (H5 : 5 ∈ l) by (apply Hl; auto).
  destruct l as [|a l]; [inversion H2|].
  apply StronglySorted_inv in Hs as [Hs Ha]. rewrite Forall_forall in Ha.
  assert (a = 2) as ->.
  { destruct (proj1 (Hl a)) as [->| ->]; [by left|done|].
    apply elem_of_cons in H2 as [?|H2]; [done|]. apply Ha in H2. lia. }
  apply elem_of_cons in H5 as [?|H5]; [done|].
  destruct l as [|c l]; [inversion H5|].
  apply StronglySorted_inv in Hs as [Hs Hc]. rewrite Forall_forall in Hc.
  assert (c = 5) as ->.
  { destruct (proj1 (Hl c)) as [->| ->]; [right; by left| |done].
    assert (2 < 2) by (apply Ha; by left). lia. }
  destruct l as [|d l]; [done|]. exfalso.
  assert (5 < d) by (apply Hc; by left).
  destruct (proj1 (Hl d)) as [->| ->]; [do 2 right; by left|lia|lia].
Qed.

(** C8.  [get_available_moves] lists exactly the indices of the cells equal
    to [EMPTY], in strictly ascending order; it is the empty list on a full
    board, and [[2, 5]] on a board whose Empty cells are exactly 2 and 5. *)
Theorem available_moves_ascending (b : board) :
  (∀ i, i ∈ get_available_moves b ↔ b !! i = Some EMPTY) ∧
  StronglySorted lt (get_available_moves b) ∧
  (check_draw b = true → get_available_moves b = []) ∧
  ((∀ i, b !! i = Some EMPTY ↔ i = 2 ∨ i = 5) → get_available_moves b = [2; 5]).
Proof.
  split; [apply elem_of_available_moves|].
  split; [apply available_moves_sorted|]. split.
  - intros Hd. by apply available_moves_nil, check_draw_true.
  - intros Hb. apply ascending_two_five; [apply available_moves_sorted|].
    intros i. by rewrite elem_of_available_moves.
Qed.

Lemma available_moves_ascending_witness :
  check_draw ["X"; "O"; "X"; "X"; "O"; "O"; "O"; "X"; "X"] = true ∧
  get_available_moves ["X"; "O"; "X"; "X"; "O"; "O"; "O"; "X"; "X"] = [] ∧
  get_available_moves ["X"; "O"; " "; "X"; "O"; " "; "O"; "X"; "X"] = [2; 5].
Proof.
  split; [reflexivity|]. split.
  - apply (available_moves_ascending ["X"; "O"; "X"; "X"; "O"; "O"; "O"; "X"; "X"]).
    reflexivity.
  - apply (available_moves_ascending ["X"; "O"; " "; "X"; "O"; " "; "O"; "X"; "X"]).
    intros i. do 9 (destruct i as [|i]; [vm_compute; split; intros; try discriminate; lia || auto|]).
    vm_compute. split; [discriminate | lia].
Defined.

(** C10.  [check_win] treats the empty marker like any other symbol: asked
    about [EMPTY] it reports a line of blanks, on the fresh board and on
    every nine-cell board with a line of Empty cells. *)
Theorem check_win_empty_marker :
  check_win empty_board EMPTY = Ok true ∧
  ∀ b : board, length b = 9 → has_line b EMPTY → check_win b EMPTY = Ok true.
Proof.
  split; [reflexivity|]. intros b Hlen Hline.
  destruct (check_win_spec b EMPTY Hlen) as (w & -> & Hw).
  f_equal. by apply Hw.
Qed.

Lemma check_win_empty_marker_witness :
  check_win ["X"; "O"; "X"; " "; " "; " "; "O"; "X"; "O"] EMPTY = Ok true.
Proof.
  apply (proj2 check_win_empty_marker); [reflexivity|].
  exists 3, 4, 5. split; [|by vm_compute].
  unfold win_lines. apply elem_of_cons. right. by left.
Defined.

(** * The claims about the search *)

(** C2.  Whatever the board and the flag, a call of [minimax] that returns
    hands the board back cell for cell as it received it; this covers the
    calls cut short by a terminal check and, the statement being about every
    board, depth and flag, every nested call; each candidate is taken back
    before the next one is tried.  On a nine-cell board the call does
    return once the depth exceeds the number of Empty cells. *)
Theorem minimax_restores_board (fuel : nat) (is_maximizing : bool) (b : board) :
  (∀ b' r, minimax fuel is_maximizing b = Ok (b', r) → b' = b) ∧
  (∀ move b' sc, move ∈ get_available_moves b →
     try_move (minimax fuel) is_maximizing b move = Ok (b', sc) → b' = b) ∧
  (length b = 9 → count_empty b < fuel →
     ∃ r, minimax fuel is_maximizing b = Ok (b, r)).
Proof.
  split; [intros b' r; apply minimax_frame|]. split.
  - intros move b' sc Hmove. apply try_move_frame.
    + intros flag b0 b1 r. apply minimax_frame.
    + by apply elem_of_available_moves.
  - intros Hlen Hcount.
    destruct (minimax_total fuel is_maximizing b Hlen Hcount) as (z & mv & -> & _).
    by eexists.
Qed.

Lemma minimax_restores_board_witness :
  ∃ r, minimax 3 true ["X"; "O"; "X"; "X"; "O"; " "; "O"; "X"; " "] =
       Ok (["X"; "O"; "X"; "X"; "O"; " "; "O"; "X"; " "], r).
Proof.
  apply (minimax_restores_board 3 true ["X"; "O"; "X"; "X"; "O"; " "; "O"; "X"; " "]).
  - reflexivity.
  - vm_compute. lia.
Defined.

(** C4.  The terminal checks of [minimax] come in this order, each ending
    the call: a line of [COMPUTER] gives [(1, None)] whatever else holds; if
    not, a line of [PLAYER] gives [(-1, None)]; if not, a full board gives
    [(0, None)]; only then does the loop over the candidates run. *)
Theorem minimax_terminal_order (fuel : nat) (is_maximizing : bool) (b : board) :
  (check_win b COMPUTER = Ok true →
     minimax (S fuel) is_maximizing b = Ok (b, (Fin 1, None))) ∧
  (check_win b COMPUTER = Ok false → check_win b PLAYER = Ok true →
     minimax (S fuel) is_maximizing b = Ok (b, (Fin (-1), None))) ∧
  (check_win b COMPUTER = Ok false → check_win b PLAYER = Ok false →
   check_draw b = true →
     minimax (S fuel) is_maximizing b = Ok (b, (Fin 0, None))) ∧
  (check_win b COMPUTER = Ok false → check_win b PLAYER = Ok false →
   check_draw b = false →
     minimax (S fuel) is_maximizing b =
     search_loop (minimax fuel) is_maximizing (get_available_moves b) b
       (if is_maximizing then NegInf else PosInf, None)).
Proof.
  cbn [minimax]. unfold minimax_body. repeat split.
  - by intros ->.
  - by intros -> ->.
  - by intros -> -> ->.
  - by intros -> -> ->.
Qed.

Lemma minimax_terminal_order_witness :
  minimax 1 false ["O"; "O"; "O"; "X"; "X"; "X"; "X"; "O"; "X"] =
    Ok (["O"; "O"; "O"; "X"; "X"; "X"; "X"; "O"; "X"], (Fin 1, None)) ∧
  minimax 1 true ["X"; "X"; "X"; "O"; "O"; " "; " "; " "; " "] =
    Ok (["X"; "X"; "X"; "O"; "O"; " "; " "; " "; " "], (Fin (-1), None)) ∧
  minimax 1 true ["X"; "O"; "X"; "X"; "O"; "O"; "O"; "X"; "X"] =
    Ok (["X"; "O"; "X"; "X"; "O"; "O"; "O"; "X"; "X"], (Fin 0, None)).
Proof.
  split; [|split].
  - apply (minimax_terminal_order 0 false ["O"; "O"; "O"; "X"; "X"; "X"; "X"; "O"; "X"]).
    reflexivity.
  - apply (minimax_terminal_order 0 true ["X"; "X"; "X"; "O"; "O"; " "; " "; " "; " "]);
      reflexivity.
  - apply (minimax_terminal_order 0 true ["X"; "O"; "X"; "X"; "O"; "O"; "O"; "X"; "X"]);
      reflexivity.
Defined.

(** C5.  On a nine-cell board with an Empty cell and no line for either
    symbol, [minimax] returns (given a depth above the number of Empty
    cells, which every descent lowers) a score among -1, 0 and 1 with a move
    that is one of the candidates; a call that returns no move was made on
    a terminal position. *)
Theorem minimax_terminates (fuel : nat) (is_maximizing : bool) (b : board) :
  length b = 9 → count_empty b < fuel →
  (EMPTY ∈ b → check_win b COMPUTER = Ok false → check_win b PLAYER = Ok false →
     ∃ z move, minimax fuel is_maximizing b = Ok (b, (Fin z, Some move)) ∧
               (z = -1 ∨ z = 0 ∨ z = 1)%Z ∧ move ∈ get_available_moves b) ∧
  (∀ b' sc, minimax fuel is_maximizing b = Ok (b', (sc, None)) →
     check_win b COMPUTER = Ok true ∨ check_win b PLAYER = Ok true ∨
     check_draw b = true) ∧
  (∀ move, move ∈ get_available_moves b →
     count_empty (<[move:=if is_maximizing then COMPUTER else PLAYER]> b)
     < count_empty b).
Proof.
  intros Hlen Hcount.
  assert (Hloop : EMPTY ∈ b → check_win b COMPUTER = Ok false →
            check_win b PLAYER = Ok false →
            ∃ z move, minimax fuel is_maximizing b = Ok (b, (Fin z, Some move)) ∧
                      in_range z ∧ move ∈ get_available_moves b).
  { intros Hin HO HX. destruct fuel as [|fuel]; [lia|].
    destruct (minimax_choice fuel is_maximizing b) as (z & mv & Hm & Hr & Hmv & _);
      try done; [lia|].
    by exists z, mv. }
  split; [done|]. split.
  - intros b' sc Hnone.
    destruct (check_win_spec b COMPUTER Hlen) as ([] & HO & _); [by left|].
    destruct (check_win_spec b PLAYER Hlen) as ([] & HX & _); [right; by left|].
    destruct (check_draw b) eqn:Hd; [by do 2 right|].
    apply check_draw_false in Hd.
    destruct (Hloop Hd HO HX) as (z & mv & Hm & _). congruence.
  - intros move Hmove. apply elem_of_available_moves in Hmove.
    pose proof (count_empty_insert b move (mark_of is_maximizing) Hmove
                  (mark_of_not_empty _)) as Hdec.
    unfold mark_of in Hdec. lia.
Qed.

Lemma minimax_terminates_witness :
  ∃ z move,
    minimax 3 true ["X"; "O"; "X"; "X"; "O"; " "; "O"; "X"; " "] =
      Ok (["X"; "O"; "X"; "X"; "O"; " "; "O"; "X"; " "], (Fin z, Some move)) ∧
    (z = -1 ∨ z = 0 ∨ z = 1)%Z ∧
    move ∈ get_available_moves ["X"; "O"; "X"; "X"; "O"; " "; "O"; "X"; " "].
Proof.
  apply (minimax_terminates 3 true ["X"; "O"; "X"; "X"; "O"; " "; "O"; "X"; " "]).
  - reflexivity.
  - vm_compute. lia.
  - apply list_elem_of_lookup. by exists 5.
  - reflexivity.
  - reflexivity.
Defined.

(** * The game loop *)

Lemma check_win_false (b : board) symbol :
  length b = 9 → ¬ has_line b symbol → check_win b symbol = Ok false.
Proof.
  intros Hlen Hno. destruct (check_win_spec b symbol Hlen) as ([] & Hw & Hiff); [|done].
  exfalso. by apply Hno, Hiff.
Qed.

Lemma check_win_true (b : board) symbol :
  length b = 9 → check_win b symbol = Ok true → has_line b symbol.
Proof.
  intros Hlen Hw. destruct (check_win_spec b symbol Hlen) as (w & Hw' & Hiff).
  apply Hiff. congruence.
Qed.

Lemma check_win_false_inv (b : board) symbol :
  length b = 9 → check_win b symbol = Ok false → ¬ has_line b symbol.
Proof.
  intros Hlen Hw Hline. destruct (check_win_spec b symbol Hlen) as (w & Hw' & Hiff).
  apply Hiff in Hline. congruence.
Qed.

(** A mark placed by one side completes no line of another symbol. *)
Lemma has_line_insert_other (b : board) i p q :
  q ≠ p → has_line (<[i:=p]> b) q → has_line b q.
Proof.
  intros Hne (j1 & j2 & j3 & Hin & H1 & H2 & H3).
  exists j1, j2, j3. split; [done|].
  apply list_lookup_insert_Some in H1, H2, H3.
  destruct H1 as [(_ & ? & _)|[_ H1]]; [congruence|].
  destruct H2 as [(_ & ? & _)|[_ H2]]; [congruence|].
  destruct H3 as [(_ & ? & _)|[_ H3]]; [congruence|]. done.
Qed.

Lemma finish_turn_inv (b : board) p st :
  length b = 9 → finish_turn b p = Ok st →
  (st = Won p ∧ has_line b p) ∨
  (¬ has_line b p ∧
   (st = Drawn ∨
    (st = Running (if String.eqb p PLAYER then COMPUTER else PLAYER) ∧ EMPTY ∈ b))).
Proof.
  intros Hlen. unfold finish_turn.
  destruct (check_win_spec b p Hlen) as (w & -> & Hiff). cbn [bind].
  destruct w.
  - intros [= <-]. left. split; [done|]. by apply Hiff.
  - intros Hst. right. split; [intros Hl; apply Hiff in Hl; done|].
    destruct (check_draw b) eqn:Hd; injection Hst as <-; [by left|].
    right. split; [done|]. by apply check_draw_false.
Qed.

Lemma free_turn_ok (b : board) p i b' st :
  free_turn b p i = Ok (b', st) → b' = <[i:=p]> b ∧ finish_turn b' p = Ok st.
Proof.
  unfold free_turn, make_move. intros H.
  bind_inv H. apply set_item_ok in E as [_ ->].
  bind_inv H. by injection H as <- <-.
Qed.

Lemma free_turn_inv (b : board) p i b' st :
  turn_inv b (Running p) → b !! i = Some EMPTY →
  free_turn b p i = Ok (b', st) →
  b' = <[i:=p]> b ∧ turn_inv b' st.
Proof.
  intros (Hlen & Hp & HnX & HnO & _) Hi H.
  apply free_turn_ok in H as [-> E]. split; [done|].
  assert (Hlen' : length (<[i:=p]> b) = 9) by by rewrite length_insert.
  split; [done|].
  apply finish_turn_inv in E; [|done].
  destruct Hp as [-> | ->].
  - assert (¬ has_line (<[i:=PLAYER]> b) COMPUTER).
    { intros Hl. by apply HnO, (has_line_insert_other b i PLAYER). }
    destruct E as [[-> _]|[Hno [-> | [-> Hin]]]]; [by left|done|].
    split; [by right|]. done.
  - assert (¬ has_line (<[i:=COMPUTER]> b) PLAYER).
    { intros Hl. by apply HnX, (has_line_insert_other b i COMPUTER). }
    destruct E as [[-> _]|[Hno [-> | [-> Hin]]]]; [by right|done|].
    split; [by left|]. done.
Qed.

Lemma empty_board_inv : turn_inv empty_board (Running PLAYER).
Proof.
  split; [done|]. split; [by left|].
  split; [|split].
  - by apply check_win_false_inv.
  - by apply check_win_false_inv.
  - by left.
Qed.

Lemma any_reachable_inv (b : board) st : reachable any_turn b st → turn_inv b st.
Proof.
  induction 1 as [|b p b' st _ IH (i & Hi & Hturn)]; [apply empty_board_inv|].
  by destruct (free_turn_inv b p i b' st IH Hi Hturn).
Qed.

Lemma no_two_lines (b : board) st :
  turn_inv b st →
  ¬ (check_win b PLAYER = Ok true ∧ check_win b COMPUTER = Ok true).
Proof.
  intros [Hlen Hst] [HX HO].
  apply check_win_true in HX, HO; try done.
  destruct st as [w| |p].
  - destruct Hst as [[_ ?]|[_ ?]]; done.
  - by destruct Hst.
  - by destruct Hst as (_ & ? & _).
Qed.

(** C9.  On no board that the game reaches, the two sides taking turns on
    Empty cells and play ending with the first win or the full board, does
    [check_win] hold for both [PLAYER] and [COMPUTER]. *)
Theorem never_two_winners (b : board) (st : status) :
  reachable any_turn b st →
  ¬ (check_win b PLAYER = Ok true ∧ check_win b COMPUTER = Ok true).
Proof. intros Hreach. by apply (no_two_lines b st), any_reachable_inv. Qed.

Lemma never_two_winners_witness :
  ¬ (check_win ["X"; " "; " "; " "; " "; " "; " "; " "; " "] PLAYER = Ok true ∧
     check_win ["X"; " "; " "; " "; " "; " "; " "; " "; " "] COMPUTER = Ok true).
Proof.
  apply (never_two_winners _ (Running COMPUTER)).
  apply (reachable_turn any_turn empty_board PLAYER).
  - apply reachable_start.
  - exists 0. split; reflexivity.
Defined.

(** * Searching the fresh board *)

Lemma board_eqb_eq (a b : board) : board_eqb a b = true → a = b.
Proof.
  revert b. induction a as [|x a IH]; intros [|y b]; simpl; try done.
  intros [Hx Hab]%andb_prop. apply String.eqb_eq in Hx as ->.
  by rewrite (IH b Hab).
Qed.

Lemma tlookup_entry (t : Pmap entry) flag (b b' : board) r :
  tlookup t flag b = Ok (b', r) →
  b' = b ∧ ∃ k, t !! k = Some (flag, b, r).
Proof.
  unfold tlookup. destruct (t !! key flag b) as [[[m0 b0] r0]|] eqn:E; [|done].
  destruct (Bool.eqb m0 flag && board_eqb b0 b) eqn:Heq; [|done].
  intros [= <- <-]. split; [done|].
  apply andb_prop in Heq as [Hm Hb].
  apply Bool.eqb_prop in Hm as ->. apply board_eqb_eq in Hb as ->.
  by exists (key flag b).
Qed.

Section Agree.

Variables rec1 rec2 : bool → board → result outcome.
Variable m : bool.
Variable b : board.
Hypothesis rec1_frame : ∀ flag b0 b' r, rec1 flag b0 = Ok (b', r) → b' = b0.
Hypothesis agree : ∀ i r, b !! i = Some EMPTY →
  rec1 (negb m) (<[i:=mark_of m]> b) = Ok (<[i:=mark_of m]> b, r) →
  rec2 (negb m) (<[i:=mark_of m]> b) = Ok (<[i:=mark_of m]> b, r).

Lemma try_move_agree i b' sc :
  b !! i = Some EMPTY →
  try_move rec1 m b i = Ok (b', sc) → b' = b ∧ try_move rec2 m b i = Ok (b, sc).
Proof.
  intros Hi H. pose proof (try_move_frame rec1 rec1_frame m b i b' sc Hi H) as ->.
  split; [done|]. unfold try_move in *. fold (mark_of m) in *.
  bind_inv H. apply set_item_ok in E as [Hlt ->].
  cbn [bind]. bind_inv H. destruct a as [b2 [s mv]].
  pose proof (rec1_frame _ _ _ _ E) as ->.
  rewrite (agree i (s, mv) Hi E). done.
Qed.

Lemma search_loop_agree moves best o :
  Forall (λ i, b !! i = Some EMPTY) moves →
  search_loop rec1 m moves b best = Ok o →
  search_loop rec2 m moves b best = Ok o.
Proof.
  intros Hmoves. revert best.
  induction Hmoves as [|i moves Hi _ IH]; intros best H; [done|].
  cbn [search_loop] in *. bind_inv H. destruct a as [b1 sc].
  apply try_move_agree in E as [-> ->]; [|done]. cbn [bind]. by apply IH.
Qed.

Lemma minimax_body_agree o :
  minimax_body rec1 m b = Ok o → minimax_body rec2 m b = Ok o.
Proof.
  unfold minimax_body. intros H.
  destruct (check_win b COMPUTER) as [[]| |]; try done. cbn [bind] in *.
  destruct (check_win b PLAYER) as [[]| |]; try done. cbn [bind] in *.
  destruct (check_draw b); [done|].
  apply search_loop_agree; [|done].
  apply Forall_forall. intros i. apply elem_of_available_moves.
Qed.

End Agree.

(** An accepted table gives the results of the search. *)
Lemma table_sound (t : Pmap entry) :
  table_ok t = true →
  ∀ fuel m (b : board) r,
    tlookup t m b = Ok (b, r) → count_empty b < fuel → minimax fuel m b = Ok (b, r).
Proof.
  intros Hok. induction fuel as [|fuel IH]; intros m b r Hlook Hcount; [lia|].
  apply tlookup_entry in Hlook as [_ [k Hk]].
  apply elem_of_map_to_list in Hk.
  unfold table_ok in Hok. rewrite forallb_forall in Hok.
  apply list_elem_of_In, Hok in Hk. cbn [snd entry_ok] in Hk.
  destruct (minimax_body (tlookup t) m b) as [[b' r']| |] eqn:Hbody; [|done..].
  apply andb_prop in Hk as [Hb Hr].
  apply board_eqb_eq in Hb as ->. apply bool_decide_eq_true in Hr as ->.
  cbn [minimax]. apply (minimax_body_agree (tlookup t)); [| |done].
  - intros flag b0 b1 r1 H1. by apply tlookup_entry in H1 as [-> _].
  - intros i r1 Hi H1. apply IH; [done|].
    pose proof (count_empty_insert b i (mark_of m) Hi (mark_of_not_empty m)). lia.
Qed.

Lemma table_checked_sound (t : Pmap entry) (m : bool) :
  table_checked t = true →
  search m empty_board = Ok (empty_board, (Fin 0, Some 0)).
Proof.
  unfold table_checked. intros [Hok H]%andb_prop.
  destruct (tlookup t true empty_board) as [[b1 r1]| |] eqn:H1; [|done..].
  destruct (tlookup t false empty_board) as [[b2 r2]| |] eqn:H2; [|done..].
  apply andb_prop in H as [Hr1 Hr2].
  apply bool_decide_eq_true in Hr1 as ->. apply bool_decide_eq_true in Hr2 as ->.
  pose proof (tlookup_entry _ _ _ _ _ H1) as [-> _].
  pose proof (tlookup_entry _ _ _ _ _ H2) as [-> _].
  unfold search. destruct m; apply (table_sound t Hok); try done;
    vm_compute; lia.
Qed.

Lemma fresh_table_accepted : table_checked fresh_table = true.
Proof. vm_cast_no_check (eq_refl true). Qed.

(** The two searches of the fresh board. *)
Lemma search_fresh (m : bool) :
  search m empty_board = Ok (empty_board, (Fin 0, Some 0)).
Proof. apply (table_checked_sound fresh_table), fresh_table_accepted. Qed.

(** C3.  The best pair changes on a strict comparison only, so the move
    returned is the lowest index among the candidates of the best score: no
    candidate scores better than the returned one, and no candidate of a
    lower index scores the same.  On the fresh board the maximizing search
    returns index 0. *)
Theorem minimax_lowest_index_wins :
  (∀ fuel is_maximizing (b : board),
     length b = 9 → count_empty b ≤ fuel →
     check_win b COMPUTER = Ok false → check_win b PLAYER = Ok false → EMPTY ∈ b →
     ∃ best move,
       minimax (S fuel) is_maximizing b = Ok (b, (best, Some move)) ∧
       move ∈ get_available_moves b ∧
       try_move (minimax fuel) is_maximizing b move = Ok (b, best) ∧
       ∀ i sc, i ∈ get_available_moves b →
         try_move (minimax fuel) is_maximizing b i = Ok (b, sc) →
         (if is_maximizing then score_gt sc best else score_lt sc best) = false ∧
         (i < move → sc ≠ best)) ∧
  search true empty_board = Ok (empty_board, (Fin 0, Some 0)).
Proof.
  split; [|apply search_fresh].
  intros fuel m b Hlen Hcount HO HX Hin.
  destruct (minimax_choice fuel m b Hlen Hcount HO HX Hin)
    as (z & mv & Hm & _ & Hmv & Htry & Hall).
  exists (Fin z), mv. done.
Qed.

Lemma minimax_lowest_index_wins_witness :
  ∃ best move,
    minimax 3 true ["X"; "O"; "X"; "X"; "O"; " "; "O"; "X"; " "] =
      Ok (["X"; "O"; "X"; "X"; "O"; " "; "O"; "X"; " "], (best, Some move)) ∧
    move ∈ get_available_moves ["X"; "O"; "X"; "X"; "O"; " "; "O"; "X"; " "] ∧
    try_move (minimax 2) true ["X"; "O"; "X"; "X"; "O"; " "; "O"; "X"; " "] move =
      Ok (["X"; "O"; "X"; "X"; "O"; " "; "O"; "X"; " "], best) ∧
    ∀ i sc, i ∈ get_available_moves ["X"; "O"; "X"; "X"; "O"; " "; "O"; "X"; " "] →
      try_move (minimax 2) true ["X"; "O"; "X"; "X"; "O"; " "; "O"; "X"; " "] i =
        Ok (["X"; "O"; "X"; "X"; "O"; " "; "O"; "X"; " "], sc) →
      score_gt sc best = false ∧ (i < move → sc ≠ best).
Proof.
  apply (proj1 minimax_lowest_index_wins 2 true
           ["X"; "O"; "X"; "X"; "O"; " "; "O"; "X"; " "]).
  - reflexivity.
  - vm_compute. lia.
  - reflexivity.
  - reflexivity.
  - apply list_elem_of_lookup. by exists 5.
Defined.

(** C6, as stated, fails on the full board: the search returns no move,
    there is no candidate to fall back to, and [get_computer_move] ends in
    [IndexError]. *)
Lemma get_computer_move_full_board :
  length drawn_board = 9 ∧
  search true drawn_board = Ok (drawn_board, (Fin 0, None)) ∧
  get_available_moves drawn_board = [] ∧
  get_computer_move drawn_board = IndexError.
Proof. repeat split. Qed.

(** C6, amended.  When the search returns no move on a board that still has
    an Empty cell, [get_computer_move] returns the first entry of
    [get_available_moves(board)] and leaves the board as it was. *)
Theorem get_computer_move_fallback (b b' : board) (sc : score) :
  search true b = Ok (b', (sc, None)) → EMPTY ∈ b →
  ∃ move, get_available_moves b !! 0 = Some move ∧
          get_computer_move b = Ok (b, move).
Proof.
  intros Hsearch Hin.
  assert (b' = b) as -> by (by apply minimax_frame in Hsearch).
  destruct (get_available_moves b) as [|move rest] eqn:E.
  { by apply available_moves_nil in E. }
  exists move. split; [done|].
  unfold get_computer_move. rewrite Hsearch. cbn [bind]. by rewrite E.
Qed.

Lemma get_computer_move_fallback_witness :
  ∃ move,
    get_available_moves ["O"; "O"; "O"; "X"; "X"; " "; " "; " "; " "] !! 0 = Some move ∧
    get_computer_move ["O"; "O"; "O"; "X"; "X"; " "; " "; " "; " "] =
      Ok (["O"; "O"; "O"; "X"; "X"; " "; " "; " "; " "], move).
Proof.
  apply (get_computer_move_fallback
           ["O"; "O"; "O"; "X"; "X"; " "; " "; " "; " "]
           ["O"; "O"; "O"; "X"; "X"; " "; " "; " "; " "] (Fin 1)).
  - reflexivity.
  - apply list_elem_of_lookup. by exists 5.
Defined.

(** * The computer does not lose *)

Lemma search_child m (b : board) i z :
  length b = 9 → b !! i = Some EMPTY →
  try_move (minimax 9) m b i = Ok (b, Fin z) →
  search (negb m) (<[i:=mark_of m]> b) = Ok (<[i:=mark_of m]> b, (Fin z, None)) ∨
  ∃ mv, search (negb m) (<[i:=mark_of m]> b) = Ok (<[i:=mark_of m]> b, (Fin z, Some mv)).
Proof.
  intros Hlen Hi Htry. apply try_move_inv in Htry as (b2 & mv & Hrec).
  pose proof (minimax_frame _ _ _ _ _ Hrec) as ->.
  pose proof (count_empty_insert b i (mark_of m) Hi (mark_of_not_empty m)) as Hdec.
  pose proof (count_empty_le_length b) as Hle.
  unfold search. rewrite length_insert, Hlen.
  rewrite (minimax_fuel_irrelevant 10 9); [| by rewrite length_insert | lia | lia].
  rewrite Hrec. destruct mv; [right; by eexists | by left].
Qed.

Lemma search_child_holds m (b : board) i z :
  length b = 9 → b !! i = Some EMPTY → (0 ≤ z)%Z →
  try_move (minimax 9) m b i = Ok (b, Fin z) →
  holds_draw (negb m) (<[i:=mark_of m]> b).
Proof.
  intros Hlen Hi Hz Htry.
  destruct (search_child m b i z Hlen Hi Htry) as [H|[mv H]]; by eexists _, _.
Qed.

(** The computer's move keeps the value. *)
Lemma computer_move_holds (b : board) :
  turn_inv b (Running COMPUTER) → holds_draw true b →
  ∃ mv, get_computer_move b = Ok (b, mv) ∧ b !! mv = Some EMPTY ∧
        holds_draw false (<[mv:=COMPUTER]> b).
Proof.
  intros (Hlen & _ & HnX & HnO & Hin) (z & mv0 & Hs & Hz).
  pose proof (count_empty_le_length b) as Hle.
  destruct (minimax_choice 9 true b) as (z' & mv & Hm & _ & Hmv & Htry & _);
    try done; try lia; try (by apply check_win_false).
  unfold search in Hs. rewrite Hlen, Hm in Hs. injection Hs as <- <-.
  apply elem_of_available_moves in Hmv.
  exists mv. split; [|split; [done|]].
  - unfold get_computer_move, search. rewrite Hlen, Hm. done.
  - by apply (search_child_holds true b mv z').
Qed.

(** Whatever the human plays, the value does not drop below a draw. *)
Lemma player_move_holds (b : board) i :
  turn_inv b (Running PLAYER) → holds_draw false b → b !! i = Some EMPTY →
  holds_draw true (<[i:=PLAYER]> b).
Proof.
  intros (Hlen & _ & HnX & HnO & Hin) (z & mv0 & Hs & Hz) Hi.
  pose proof (count_empty_le_length b) as Hle.
  destruct (minimax_choice 9 false b) as (z' & mv & Hm & _ & _ & _ & Hall);
    try done; try lia; try (by apply check_win_false).
  unfold search in Hs. rewrite Hlen, Hm in Hs. injection Hs as <- <-.
  assert (Htot : ∀ flag (b1 : board), length b1 = 9 → count_empty b1 < 9 →
            ∃ z mv, minimax 9 flag b1 = Ok (b1, (Fin z, mv)) ∧ in_range z).
  { intros. by apply minimax_total. }
  destruct (try_move_total (minimax 9) 9 Htot false b i) as (zi & Htry & _);
    try done; try lia.
  destruct (Hall i (Fin zi)) as [Hb _]; [by apply elem_of_available_moves|done|].
  cbn in Hb. apply Z.ltb_ge in Hb.
  apply (search_child_holds false b i zi); try done. lia.
Qed.

(** A position valued at a draw or better shows no line of the human
    unless it shows one of the computer. *)
Lemma holds_draw_no_line m (b : board) :
  length b = 9 → holds_draw m b → ¬ has_line b COMPUTER → ¬ has_line b PLAYER.
Proof.
  intros Hlen (z & mv & Hs & Hz) HnO HX.
  unfold search in Hs. cbn [minimax] in Hs. unfold minimax_body in Hs.
  rewrite (check_win_false b COMPUTER Hlen HnO) in Hs. cbn [bind] in Hs.
  destruct (check_win_spec b PLAYER Hlen) as (w & Hw & Hiff).
  apply Hiff in HX as ->. rewrite Hw in Hs. cbn [bind] in Hs.
  injection Hs as <- _. lia.
Qed.

Lemma play_turn_player (b : board) input :
  play_turn b PLAYER input = free_turn b PLAYER input.
Proof. done. Qed.

Lemma play_turn_computer (b : board) input mv :
  get_computer_move b = Ok (b, mv) →
  play_turn b COMPUTER input = free_turn b COMPUTER mv.
Proof. unfold play_turn, free_turn. cbn. by intros ->. Qed.

Lemma free_turn_total (b : board) p i :
  length b = 9 → b !! i = Some EMPTY → ∃ b' st, free_turn b p i = Ok (b', st).
Proof.
  intros Hlen Hi. unfold free_turn, make_move.
  assert (set_item b i p = Ok (<[i:=p]> b)) as ->.
  { apply set_item_ok. split; [|done]. by apply lookup_lt_Some in Hi. }
  cbn [bind]. unfold finish_turn.
  destruct (check_win_spec (<[i:=p]> b) p) as (w & -> & _).
  { by rewrite length_insert. }
  cbn [bind]. destruct w; [by eexists _, _|].
  destruct (check_draw (<[i:=p]> b)); by eexists _, _.
Qed.

(** What the loop of [play_game] maintains. *)
Lemma game_reachable_inv (b : board) st :
  reachable game_turn b st →
  reachable any_turn b st ∧ game_inv b st ∧ ¬ has_line b PLAYER.
Proof.
  induction 1 as [|b p b' st _ (IHany & IHgame & IHno) (input & Hvalid & Hturn)].
  - split; [apply reachable_start|]. split.
    + left. split; [done|]. exists 0%Z, (Some 0). split; [|done].
      apply search_fresh.
    + by apply check_win_false_inv.
  - pose proof (any_reachable_inv b (Running p) IHany) as Hinv.
    destruct IHgame as [[-> Hhold]|[-> Hhold]].
    + destruct (Hvalid eq_refl) as [_ Hi].
      rewrite play_turn_player in Hturn.
      destruct (free_turn_inv b PLAYER input b' st Hinv Hi Hturn) as [-> Hinv'].
      pose proof (player_move_holds b input Hinv Hhold Hi) as Hhold'.
      assert (HnO : ¬ has_line (<[input:=PLAYER]> b) COMPUTER).
      { intros Hl. destruct Hinv as (_ & _ & _ & HnO & _).
        by apply HnO, (has_line_insert_other b input PLAYER). }
      assert (HnX : ¬ has_line (<[input:=PLAYER]> b) PLAYER).
      { apply (holds_draw_no_line true); [by destruct Hinv'|done..]. }
      split; [|split; [|done]].
      * apply (reachable_turn any_turn b PLAYER); [done|]. by exists input.
      * apply free_turn_ok in Hturn as [_ E].
        apply finish_turn_inv in E; [|by destruct Hinv'].
        destruct E as [[-> Hl]|[_ [-> | [-> _]]]]; [done|done|].
        right. done.
    + destruct (computer_move_holds b Hinv Hhold) as (mv & Hmove & Hi & Hhold').
      rewrite (play_turn_computer b input mv Hmove) in Hturn.
      destruct (free_turn_inv b COMPUTER mv b' st Hinv Hi Hturn) as [-> Hinv'].
      assert (HnX : ¬ has_line (<[mv:=COMPUTER]> b) PLAYER).
      { intros Hl. by apply IHno, (has_line_insert_other b mv COMPUTER). }
      split; [|split; [|done]].
      * apply (reachable_turn any_turn b COMPUTER); [done|]. by exists mv.
      * apply free_turn_ok in Hturn as [_ E].
        apply finish_turn_inv in E; [|by destruct Hinv'].
        destruct E as [[-> Hl]|[_ [-> | [-> _]]]]; [done|done|].
        left. done.
Qed.

(** The runs of [play_game] are among those in which either side takes
    any Empty square, so its boards show no two winners either. *)
Lemma game_no_two_lines (b : board) st :
  reachable game_turn b st →
  ¬ (check_win b PLAYER = Ok true ∧ check_win b COMPUTER = Ok true).
Proof.
  intros Hreach. apply game_reachable_inv in Hreach as [Hany _].
  by apply (no_two_lines b st), any_reachable_inv.
Qed.

(** C1.  From the fresh board with the human to move first, the computer
    playing [get_computer_move] and the human any valid squares, the game
    reaches no board with a line of the human: a round ends with the
    computer's win or with a draw, and until it ends the next turn is always
    carried out. *)
Theorem computer_never_loses (b : board) (st : status) :
  reachable game_turn b st →
  check_win b PLAYER = Ok false ∧
  (∀ w, st = Won w → w = COMPUTER) ∧
  (∀ p input, st = Running p → (p = PLAYER → valid_player_move b input) →
     ∃ b' st', play_turn b p input = Ok (b', st')).
Proof.
  intros Hreach. apply game_reachable_inv in Hreach as (Hany & Hgame & HnX).
  apply any_reachable_inv in Hany as Hinv.
  split; [|split].
  - apply check_win_false; [by destruct Hinv | done].
  - intros w ->. done.
  - intros p input -> Hvalid. destruct Hinv as [Hlen Hrun].
    destruct Hgame as [[-> Hhold]|[-> Hhold]].
    + destruct (Hvalid eq_refl) as [_ Hi]. rewrite play_turn_player.
      by apply free_turn_total.
    + destruct (computer_move_holds b (conj Hlen Hrun) Hhold) as (mv & Hmove & Hi & _).
      rewrite (play_turn_computer b input mv Hmove). by apply free_turn_total.
Qed.

Lemma computer_never_loses_witness :
  check_win ["X"; " "; " "; " "; " "; " "; " "; " "; " "] PLAYER = Ok false.
Proof.
  apply (computer_never_loses _ (Running COMPUTER)).
  apply (reachable_turn game_turn empty_board PLAYER).
  - apply reachable_start.
  - exists 0. split; [|reflexivity]. intros _. split; [lia | reflexivity].
Defined.

(** * Further properties of the board functions *)

(** X1.  [check_draw] holds exactly when [get_available_moves] has nothing
    to offer, on lists of any length, the empty list included; lines play
    no part in it. *)
Theorem check_draw_no_moves (b : board) :
  check_draw b = true ↔ get_available_moves b = [].
Proof. by rewrite check_draw_true, available_moves_nil. Qed.

Lemma check_draw_no_moves_witness : get_available_moves drawn_board = [].
Proof. apply (proj1 (check_draw_no_moves drawn_board)). reflexivity. Defined.








(** X4.  On a nine-cell board [get_computer_move] returns an Empty square
    and leaves the board as it was whenever there is an Empty square, the
    game being over or not; on a full board it raises [IndexError]. *)
Theorem get_computer_move_square (b : board) :
  length b = 9 →
  (EMPTY ∈ b → ∃ move, get_computer_move b = Ok (b, move) ∧ b !! move = Some EMPTY) ∧
  (EMPTY ∉ b → get_computer_move b = IndexError).
Proof.
  intros Hlen.
  pose proof (count_empty_le_length b) as Hle.
  assert (Hterminal : ∀ sc, search true b = Ok (b, (sc, None)) →
    (EMPTY ∈ b → ∃ move, get_computer_move b = Ok (b, move) ∧ b !! move = Some EMPTY) ∧
    (EMPTY ∉ b → get_computer_move b = IndexError)).
  { intros sc Hs. unfold get_computer_move. rewrite Hs. cbn [bind]. split.
    - intros Hin. destruct (get_available_moves b) as [|move rest] eqn:E.
      { by apply available_moves_nil in E. }
      exists move. split; [done|]. apply elem_of_available_moves.
      rewrite E. by left.
    - intros Hnot. apply available_moves_nil in Hnot. by rewrite Hnot. }
  unfold search in Hterminal. rewrite Hlen in Hterminal.
  cbn [minimax] in Hterminal. unfold minimax_body in Hterminal.
  destruct (check_win_spec b COMPUTER Hlen) as ([] & HO & _).
  { apply (Hterminal (Fin 1)). by rewrite HO. }
  destruct (check_win_spec b PLAYER Hlen) as ([] & HX & _).
  { apply (Hterminal (Fin (-1))). rewrite HO. cbn [bind]. by rewrite HX. }
  destruct (check_draw b) eqn:Hd.
  { apply (Hterminal (Fin 0)). rewrite HO. cbn [bind]. rewrite HX. cbn [bind].
    done. }
  apply check_draw_false in Hd. split; [|done]. intros _.
  destruct (minimax_choice 9 true b) as (z & mv & Hm & _ & Hmv & _);
    try done; try lia.
  exists mv. split; [|by apply elem_of_available_moves].
  unfold get_computer_move, search. by rewrite Hlen, Hm.
Qed.

Lemma get_computer_move_square_witness :
  ∃ move,
    get_computer_move ["X"; "O"; "X"; "X"; "O"; " "; "O"; "X"; " "] =
      Ok (["X"; "O"; "X"; "X"; "O"; " "; "O"; "X"; " "], move) ∧
    ["X"; "O"; "X"; "X"; "O"; " "; "O"; "X"; " "] !! move = Some EMPTY.
Proof.
  apply (get_computer_move_square ["X"; "O"; "X"; "X"; "O"; " "; "O"; "X"; " "]).
  - reflexivity.
  - apply list_elem_of_lookup. by exists 5.
Defined.

(** X5.  When the side to move can complete a line at once, the search
    gives the position that side's best score: 1 when the computer is to
    move, and then the move returned leads to a position also scored 1;
    -1 when the human is to move. *)
Theorem search_sees_the_win (b : board) (i : nat) :
  length b = 9 → check_win b COMPUTER = Ok false → check_win b PLAYER = Ok false →
  b !! i = Some EMPTY →
  (check_win (<[i:=COMPUTER]> b) COMPUTER = Ok true →
     ∃ move mv', search true b = Ok (b, (Fin 1, Some move)) ∧
       b !! move = Some EMPTY ∧
       search false (<[move:=COMPUTER]> b) = Ok (<[move:=COMPUTER]> b, (Fin 1, mv'))) ∧
  (check_win (<[i:=PLAYER]> b) PLAYER = Ok true →
     ∃ move, search false b = Ok (b, (Fin (-1), Some move))).
Proof.
  intros Hlen HO HX Hi.
  pose proof (count_empty_le_length b) as Hle.
  assert (Hin : EMPTY ∈ b) by (apply list_elem_of_lookup; by exists i).
  assert (Htot : ∀ flag (b1 : board), length b1 = 9 → count_empty b1 < 9 →
            ∃ z mv, minimax 9 flag b1 = Ok (b1, (Fin z, mv)) ∧ in_range z).
  { intros. by apply minimax_total. }
  assert (Hchild : ∀ m z mv, minimax 9 (negb m) (<[i:=mark_of m]> b)
              = Ok (<[i:=mark_of m]> b, (Fin z, mv)) →
            try_move (minimax 9) m b i = Ok (b, Fin z)).
  { intros m z mv Hrec.
    destruct (try_move_total (minimax 9) 9 Htot m b i) as (zi & Htry & _);
      try done; try lia.
    pose proof Htry as Hinv. apply try_move_inv in Hinv as (b2 & mv2 & Hrec').
    rewrite Hrec in Hrec'. by injection Hrec' as _ <- _. }
  split; intros Hline.
  - destruct (minimax_choice 9 true b) as (z & mv & Hm & Hr & Hmv & Htry & Hall);
      try done; try lia.
    assert (z = 1%Z) as ->.
    { destruct (Hall i (Fin 1)) as [Hb _]; [by apply elem_of_available_moves| |].
      - apply (Hchild true 1%Z None). cbn [minimax]. unfold minimax_body.
        change (mark_of true) with COMPUTER. by rewrite Hline.
      - cbn in Hb. apply Z.ltb_ge in Hb. unfold in_range in Hr. lia. }
    apply elem_of_available_moves in Hmv.
    destruct (search_child true b mv 1 Hlen Hmv Htry) as [Hs|[mv' Hs]].
    + exists mv, None. unfold search. by rewrite Hlen.
    + exists mv, (Some mv'). unfold search. by rewrite Hlen.
  - destruct (minimax_choice 9 false b) as (z & mv & Hm & Hr & Hmv & Htry & Hall);
      try done; try lia.
    assert (z = (-1)%Z) as ->.
    { destruct (Hall i (Fin (-1))) as [Hb _]; [by apply elem_of_available_moves| |].
      - apply (Hchild false (-1)%Z None). cbn [minimax]. unfold minimax_body.
        change (mark_of false) with PLAYER.
        rewrite (check_win_false (<[i:=PLAYER]> b) COMPUTER).
        + cbn [bind]. by rewrite Hline.
        + by rewrite length_insert.
        + intros Hl. apply (has_line_insert_other b i PLAYER) in Hl; [|done].
          by apply (check_win_false_inv b COMPUTER Hlen HO).
      - cbn in Hb. apply Z.ltb_ge in Hb. unfold in_range in Hr. lia. }
    exists mv. unfold search. by rewrite Hlen.
Qed.

Lemma search_sees_the_win_witness :
  ∃ move mv',
    search true ["O"; "O"; " "; "X"; "X"; " "; " "; " "; " "] =
      Ok (["O"; "O"; " "; "X"; "X"; " "; " "; " "; " "], (Fin 1, Some move)) ∧
    ["O"; "O"; " "; "X"; "X"; " "; " "; " "; " "] !! move = Some EMPTY ∧
    search false (<[move:=COMPUTER]> ["O"; "O"; " "; "X"; "X"; " "; " "; " "; " "]) =
      Ok (<[move:=COMPUTER]> ["O"; "O"; " "; "X"; "X"; " "; " "; " "; " "], (Fin 1, mv')).
Proof.
  apply (search_sees_the_win ["O"; "O"; " "; "X"; "X"; " "; " "; " "; " "] 2);
    reflexivity.
Defined.

Lemma count_cells_insert (b : board) i cell symbol mark :
  b !! i = Some cell → symbol ≠ cell →
  count_cells symbol (<[i:=mark]> b) =
  if String.eqb symbol mark then S (count_cells symbol b) else count_cells symbol b.
Proof.
  unfold count_cells. revert i. induction b as [|c b IH]; intros i Hi Hne; [done|].
  destruct i as [|i]; simpl in *.
  - injection Hi as ->. destruct (String.eqb_spec symbol cell); [done|].
    by destruct (String.eqb symbol mark).
  - specialize (IH i Hi Hne).
    destruct (String.eqb symbol c); simpl; rewrite IH;
      by destruct (String.eqb symbol mark).
Qed.

Lemma Forall_insert_cell (P : string → Prop) (b : board) i mark :
  Forall P b → P mark → Forall P (<[i:=mark]> b).
Proof.
  intros Hb Hm. revert i. induction Hb as [|c b Hc Hb IH]; intros i; [done|].
  destruct i as [|i]; simpl; constructor; done || apply IH.
Qed.

(** X7.  Every board that play reaches, the two sides taking turns on Empty
    squares, has nine cells, each an X, an O or a blank; the marks and the
    blanks add up to nine; there are as many X as O when the human is to
    move and one X more when the computer is, and never any other balance. *)
Theorem reachable_board_counts (b : board) (st : status) :
  reachable any_turn b st →
  length b = 9 ∧
  Forall (λ cell, cell = PLAYER ∨ cell = COMPUTER ∨ cell = EMPTY) b ∧
  count_cells PLAYER b + count_cells COMPUTER b + count_empty b = 9 ∧
  match st with
  | Running p =>
      (p = PLAYER ∧ count_cells PLAYER b = count_cells COMPUTER b) ∨
      (p = COMPUTER ∧ count_cells PLAYER b = S (count_cells COMPUTER b))
  | _ =>
      count_cells PLAYER b = count_cells COMPUTER b ∨
      count_cells PLAYER b = S (count_cells COMPUTER b)
  end.
Proof.
  induction 1 as [|b p b' st Hreach (Hlen & Hcells & Hsum & Hbal) (i & Hi & Hturn)].
  - split; [reflexivity|]. split; [|split; [reflexivity|]].
    + unfold empty_board. simpl.
      repeat (apply List.Forall_cons; [by do 2 right|]). apply List.Forall_nil.
    + left. split; reflexivity.
  - apply free_turn_ok in Hturn as [-> Hfin].
    assert (Hlen' : length (<[i:=p]> b) = 9) by by rewrite length_insert.
    apply finish_turn_inv in Hfin; [|done].
    assert (Hst : st = Won p ∨ st = Drawn ∨
              st = Running (if String.eqb p PLAYER then COMPUTER else PLAYER)).
    { destruct Hfin as [[-> _]|[_ [->|[-> _]]]]; auto. }
    clear Hfin. split; [done|].
    destruct Hbal as [[-> Hbal]|[-> Hbal]].
    + pose proof (count_cells_insert b i EMPTY PLAYER PLAYER Hi) as HcX.
      pose proof (count_cells_insert b i EMPTY COMPUTER PLAYER Hi) as HcO.
      pose proof (count_empty_insert b i PLAYER Hi) as HcE.
      cbn in HcX, HcO. rewrite HcX, HcO by done.
      split; [apply Forall_insert_cell; auto|]. split; [|].
      { specialize (HcE ltac:(done)). lia. }
      destruct Hst as [->|[->| ->]]; [right; lia | right; lia |].
      right. split; [done | lia].
    + pose proof (count_cells_insert b i EMPTY PLAYER COMPUTER Hi) as HcX.
      pose proof (count_cells_insert b i EMPTY COMPUTER COMPUTER Hi) as HcO.
      pose proof (count_empty_insert b i COMPUTER Hi) as HcE.
      cbn in HcX, HcO. rewrite HcX, HcO by done.
      split; [apply Forall_insert_cell; auto|]. split; [|].
      { specialize (HcE ltac:(done)). lia. }
      destruct Hst as [->|[->| ->]]; [left; lia | left; lia |].
      left. split; [done | lia].
Qed.

Lemma reachable_board_counts_witness :
  count_cells PLAYER ["X"; " "; " "; " "; " "; " "; " "; " "; " "] =
  S (count_cells COMPUTER ["X"; " "; " "; " "; " "; " "; " "; " "; " "]).
Proof.
  assert (Hreach : reachable any_turn ["X"; " "; " "; " "; " "; " "; " "; " "; " "]
                     (Running COMPUTER)).
  { apply (reachable_turn any_turn empty_board PLAYER).
    - apply reachable_start.
    - exists 0. split; reflexivity. }
  destruct (reachable_board_counts _ _ Hreach) as (_ & _ & _ & [[Hp _]|[_ Hc]]).
  - discriminate Hp.
  - exact Hc.
Defined.

(** * A winning position is won *)

Lemma holds_win_open m (b : board) :
  length b = 9 → holds_win m b → ¬ has_line b COMPUTER →
  EMPTY ∈ b ∧ ¬ has_line b PLAYER.
Proof.
  intros Hlen [mv Hs] HnO.
  unfold search in Hs. cbn [minimax] in Hs. unfold minimax_body in Hs.
  rewrite (check_win_false b COMPUTER Hlen HnO) in Hs. cbn [bind] in Hs.
  destruct (check_win_spec b PLAYER Hlen) as ([] & Hw & Hiff);
    rewrite Hw in Hs; cbn [bind] in Hs; [done|].
  destruct (check_draw b) eqn:Hd; [done|].
  split; [by apply check_draw_false|]. intros Hl. by apply Hiff in Hl.
Qed.

Lemma finish_turn_drawn (b : board) p :
  finish_turn b p = Ok Drawn → check_draw b = true.
Proof.
  unfold finish_turn. destruct (check_win b p) as [[]| |]; cbn [bind]; try done.
  by destruct (check_draw b).
Qed.

Lemma computer_move_wins (b : board) :
  turn_inv b (Running COMPUTER) → holds_win true b →
  ∃ mv, get_computer_move b = Ok (b, mv) ∧ b !! mv = Some EMPTY ∧
        holds_win false (<[mv:=COMPUTER]> b).
Proof.
  intros (Hlen & _ & HnX & HnO & Hin) (mv0 & Hs).
  pose proof (count_empty_le_length b) as Hle.
  destruct (minimax_choice 9 true b) as (z' & mv & Hm & _ & Hmv & Htry & _);
    try done; try lia; try (by apply check_win_false).
  unfold search in Hs. rewrite Hlen, Hm in Hs. injection Hs as -> <-.
  apply elem_of_available_moves in Hmv.
  exists mv. split; [|split; [done|]].
  - unfold get_computer_move, search. by rewrite Hlen, Hm.
  - destruct (search_child true b mv 1 Hlen Hmv Htry) as [H|[mv' H]]; by eexists.
Qed.

Lemma player_move_wins (b : board) i :
  turn_inv b (Running PLAYER) → holds_win false b → b !! i = Some EMPTY →
  holds_win true (<[i:=PLAYER]> b).
Proof.
  intros (Hlen & _ & HnX & HnO & Hin) (mv0 & Hs) Hi.
  pose proof (count_empty_le_length b) as Hle.
  destruct (minimax_choice 9 false b) as (z' & mv & Hm & _ & _ & _ & Hall);
    try done; try lia; try (by apply check_win_false).
  unfold search in Hs. rewrite Hlen, Hm in Hs. injection Hs as -> <-.
  assert (Htot : ∀ flag (b1 : board), length b1 = 9 → count_empty b1 < 9 →
            ∃ z mv, minimax 9 flag b1 = Ok (b1, (Fin z, mv)) ∧ in_range z).
  { intros. by apply minimax_total. }
  destruct (try_move_total (minimax 9) 9 Htot false b i) as (zi & Htry & Hr);
    try done; try lia.
  destruct (Hall i (Fin zi)) as [Hb _]; [by apply elem_of_available_moves|done|].
  cbn in Hb. apply Z.ltb_ge in Hb.
  assert (zi = 1%Z) as -> by (unfold in_range in Hr; lia).
  destruct (search_child false b i 1 Hlen Hi Htry) as [H|[mv' H]]; by eexists.
Qed.

(** One pass from a position held to be won. *)
Lemma game_turn_wins (b : board) p b' st :
  turn_inv b (Running p) → win_inv b (Running p) → game_turn b p b' st →
  turn_inv b' st ∧ win_inv b' st ∧ S (count_empty b') = count_empty b.
Proof.
  intros Hinv Hwin (input & Hvalid & Hturn).
  destruct Hwin as [[-> Hhold]|[-> Hhold]].
  - destruct (Hvalid eq_refl) as [_ Hi].
    rewrite play_turn_player in Hturn.
    destruct (free_turn_inv b PLAYER input b' st Hinv Hi Hturn) as [-> Hinv'].
    pose proof (player_move_wins b input Hinv Hhold Hi) as Hhold'.
    split; [done|]. split; [|by apply count_empty_insert].
    assert (HnO : ¬ has_line (<[input:=PLAYER]> b) COMPUTER).
    { intros Hl. destruct Hinv as (_ & _ & _ & HnO & _).
      by apply HnO, (has_line_insert_other b input PLAYER). }
    destruct (holds_win_open true _ (proj1 Hinv') Hhold' HnO) as [Hin HnX].
    apply free_turn_ok in Hturn as [_ Hfin].
    pose proof Hfin as Hdrawn.
    apply finish_turn_inv in Hfin; [|by destruct Hinv'].
    destruct Hfin as [[-> Hl]|[_ [-> | [-> _]]]]; [done| |by right].
    apply finish_turn_drawn, check_draw_true in Hdrawn. done.
  - destruct (computer_move_wins b Hinv Hhold) as (mv & Hmove & Hi & Hhold').
    rewrite (play_turn_computer b input mv Hmove) in Hturn.
    destruct (free_turn_inv b COMPUTER mv b' st Hinv Hi Hturn) as [-> Hinv'].
    split; [done|]. split; [|by apply count_empty_insert].
    apply free_turn_ok in Hturn as [_ Hfin].
    pose proof Hfin as Hdrawn.
    apply finish_turn_inv in Hfin; [|by destruct Hinv'].
    destruct Hfin as [[-> Hl]|[HnO [-> | [-> _]]]]; [done| |by left].
    apply finish_turn_drawn, check_draw_true in Hdrawn.
    by destruct (holds_win_open false _ (proj1 Hinv') Hhold' HnO).
Qed.

Lemma continues_wins n (b : board) st b' st' :
  continues game_turn n b st b' st' → turn_inv b st → win_inv b st →
  turn_inv b' st' ∧ win_inv b' st' ∧ n + count_empty b' = count_empty b.
Proof.
  induction 1 as [b st|n b p b1 st1 b' st' Hturn _ IH]; intros Hinv Hwin; [done|].
  destruct (game_turn_wins b p b1 st1 Hinv Hwin Hturn) as (Hinv1 & Hwin1 & Hdec).
  destruct (IH Hinv1 Hwin1) as (Hinv' & Hwin' & Hn). split; [done|].
  split; [done | lia].
Qed.

(** X6.  When it is the computer's turn on a nine-cell board without a
    line and the search scores the position 1, the computer wins whatever
    the human plays: no continuation of [play_game] is drawn or won by the
    human, each pass fills one square, and as long as the game runs there
    is an Empty square and the next turn is carried out. *)
Theorem computer_wins_when_ahead (b b' : board) (mv : option nat) (n : nat)
    (st : status) :
  length b = 9 → check_win b COMPUTER = Ok false → check_win b PLAYER = Ok false →
  search true b = Ok (b, (Fin 1, mv)) →
  continues game_turn n b (Running COMPUTER) b' st →
  n + count_empty b' = count_empty b ∧
  st ≠ Drawn ∧ (∀ w, st = Won w → w = COMPUTER) ∧
  (∀ p, st = Running p →
     EMPTY ∈ b' ∧
     ∀ input, (p = PLAYER → valid_player_move b' input) →
       ∃ b'' st'', play_turn b' p input = Ok (b'', st'')).
Proof.
  intros Hlen HO HX Hs Hrun.
  assert (Hwin : holds_win true b) by by exists mv.
  assert (HnO : ¬ has_line b COMPUTER) by by apply check_win_false_inv.
  destruct (holds_win_open true b Hlen Hwin HnO) as [Hin HnX].
  assert (Hinv : turn_inv b (Running COMPUTER)).
  { split; [done|]. split; [by right | done]. }
  destruct (continues_wins n b _ b' st Hrun Hinv) as (Hinv' & Hwin' & Hn).
  { by right. }
  split; [done|]. split; [by intros ->|]. split; [by intros w ->|].
  intros p -> . destruct Hinv' as [Hlen' Hrun'].
  split; [by destruct Hrun' as (_ & _ & _ & ?)|].
  intros input Hvalid. destruct Hwin' as [[-> Hhold]|[-> Hhold]].
  - destruct (Hvalid eq_refl) as [_ Hi]. rewrite play_turn_player.
    by apply free_turn_total.
  - destruct (computer_move_wins b' (conj Hlen' Hrun') Hhold) as (m & Hmove & Hi & _).
    rewrite (play_turn_computer b' input m Hmove). by apply free_turn_total.
Qed.

Lemma computer_wins_when_ahead_witness :
  1 + count_empty ["O"; "O"; "O"; "X"; "X"; " "; " "; " "; " "] =
  count_empty ["O"; "O"; " "; "X"; "X"; " "; " "; " "; " "].
Proof.
  apply (computer_wins_when_ahead
           ["O"; "O"; " "; "X"; "X"; " "; " "; " "; " "]
           ["O"; "O"; "O"; "X"; "X"; " "; " "; " "; " "]
           (Some 2) 1 (Won COMPUTER)); try reflexivity.
  apply (continues_turn game_turn 0 _ COMPUTER
           ["O"; "O"; "O"; "X"; "X"; " "; " "; " "; " "] (Won COMPUTER)).
  - exists 0. split; [discriminate | reflexivity].
  - apply continues_here.
Defined.

(** * The dialogue *)

Lemma post_bind {A B : Type} (m : io A) (k : A → io B) (c : console)
    (Q1 : A → console → Prop) (Q : B → console → Prop) E :
  post (m c) Q1 E → (∀ a c1, Q1 a c1 → post (k a c1) Q E) →
  post (io_bind m k c) Q E.
Proof. unfold io_bind. destruct (m c); simpl; auto. Qed.

Lemma post_weaken {A : Type} (r : run A) (Q Q' : A → console → Prop) E E' :
  post r Q E → (∀ a c, Q a c → Q' a c) → (∀ e c, E e c → E' e c) → post r Q' E'.
Proof. destruct r; simpl; auto. Qed.

Lemma quietly_refl (c : console) : quietly c c.
Proof.
  split; [by exists []|]. exists []. split; [by rewrite app_nil_r | inversion 1].
Qed.

Lemma quietly_trans (c1 c2 c3 : console) :
  quietly c1 c2 → quietly c2 c3 → quietly c1 c3.
Proof.
  intros [[u1 Hu1] (o1 & Ho1 & Hq1)] [[u2 Hu2] (o2 & Ho2 & Hq2)]. split.
  - exists (u1 ++ u2). by rewrite Hu1, Hu2, app_assoc.
  - exists (o1 ++ o2). split; [by rewrite Ho2, Ho1, app_assoc|].
    intros [?|?]%elem_of_app; done.
Qed.

Lemma quietly_write (c : console) (text : string) :
  text ≠ you_win → quietly c {| stdin := stdin c; stdout := stdout c ++ [text] |}.
Proof.
  intros Hne. split; [by exists []|]. exists [text]. split; [done|].
  intros H%list_elem_of_singleton. congruence.
Qed.

Lemma quietly_read (c : console) line rest :
  stdin c = line :: rest → quietly c {| stdin := rest; stdout := stdout c |}.
Proof.
  intros Hin. split; [by exists [line]|]. exists []. simpl.
  split; [by rewrite app_nil_r | inversion 1].
Qed.

Lemma quietly_stdin_length (c c' : console) :
  quietly c c' → length (stdin c') ≤ length (stdin c).
Proof. intros [[used ->] _]. rewrite length_app. lia. Qed.

Ltac text_differs :=
  let H := fresh in intros H; vm_compute in H; discriminate H.

Lemma print_post (text : string) (c : console) E :
  (text ++ newline)%string ≠ you_win →
  post (print text c) (λ _ c', quietly c c' ∧ stdin c' = stdin c) E.
Proof. intros Hne. simpl. split; [by apply quietly_write | done]. Qed.

Lemma input_post (prompt : string) (c : console) :
  prompt ≠ you_win →
  post (input prompt c)
    (λ _ c', quietly c c' ∧ length (stdin c') < length (stdin c))
    (λ e c', quietly c c' ∧ e = PyEOFError ∧ stdin c' = []).
Proof.
  intros Hne. unfold input, io_bind, write. cbn [stdin stdout].
  pose proof (quietly_write c prompt Hne) as Hq.
  destruct (stdin c) as [|line rest] eqn:Hin; cbn [post].
  - done.
  - split; [|simpl; lia]. eapply quietly_trans; [done|].
    by apply (quietly_read {| stdin := line :: rest; stdout := stdout c ++ [prompt] |}
                line rest).
Qed.

Lemma has_comma_split (s : string) :
  has_comma s = true → ∃ before after, split_comma s = Some (before, after).
Proof.
  induction s as [|a s IH]; simpl; [done|].
  destruct (Ascii.eqb a comma); simpl; [by eexists _, _|].
  intros Hs. destruct (IH Hs) as (before & after & ->). by eexists _, _.
Qed.

Section DialogueFacts.

Variable py : str_methods.

Lemma read_move_post (b : board) (line : string) (c : console) :
  post (read_move py b line c)
    (λ answer c',
       quietly c c' ∧ stdin c' = stdin c ∧
       ∀ index, answer = Some index → valid_player_move b index)
    (λ e c', c' = c ∧
       ((e = PyValueError ∧ ∃ text, py_isdigit py text = true ∧ py_int py text = None)
        ∨ (e = PyIndexError ∧ length b < 9))).
Proof.
  unfold read_move.
  destruct (has_comma (py_strip py line)) eqn:Hcomma; simpl negb; cbv iota.
  2:{ eapply post_bind; [apply print_post; text_differs|].
      intros _ c1 [Hq Hs]. simpl. done. }
  destruct (has_comma_split _ Hcomma) as (before & after & ->).
  destruct (py_isdigit py (py_strip py before)) eqn:Hrow; simpl.
  2:{ split; [by apply quietly_write; text_differs | done]. }
  destruct (py_isdigit py (py_strip py after)) eqn:Hcol; simpl.
  2:{ split; [by apply quietly_write; text_differs | done]. }
  destruct (py_int py (py_strip py before)) as [row|] eqn:Hr; simpl.
  2:{ split; [done|]. left. split; [done|]. by exists (py_strip py before). }
  destruct (py_int py (py_strip py after)) as [col|] eqn:Hc; simpl.
  2:{ split; [done|]. left. split; [done|]. by exists (py_strip py after). }
  destruct (bool_decide (row ∈ [1; 2; 3]%Z)) eqn:Hrow3; simpl.
  2:{ split; [by apply quietly_write; text_differs | done]. }
  destruct (bool_decide (col ∈ [1; 2; 3]%Z)) eqn:Hcol3; simpl.
  2:{ split; [by apply quietly_write; text_differs | done]. }
  apply bool_decide_eq_true in Hrow3, Hcol3.
  assert (Hindex : Z.to_nat ((row - 1) * 3 + (col - 1)) < 9).
  { rewrite !elem_of_cons, elem_of_nil in Hrow3, Hcol3. lia. }
  unfold io_bind, lift, get_item.
  destruct (b !! Z.to_nat ((row - 1) * 3 + (col - 1))) as [cell|] eqn:Hcell; simpl.
  2:{ split; [done|]. right. split; [done|].
      apply lookup_ge_None in Hcell. lia. }
  destruct (String.eqb_spec cell EMPTY) as [->|Hne]; simpl.
  - split; [apply quietly_refl|]. split; [done|]. by intros index [= <-].
  - split; [by apply quietly_write; text_differs | done].
Qed.

End DialogueFacts.

Lemma get_player_move_loop_post py fuel (b : board) (c : console) :
  length (stdin c) < fuel →
  post (get_player_move_loop py fuel b c)
    (λ index c',
       valid_player_move b index ∧ quietly c c' ∧
       length (stdin c') < length (stdin c))
    (λ e c', quietly c c' ∧
       (gives_up py e c' ∨ (e = PyIndexError ∧ length b < 9))).
Proof.
  revert c. induction fuel as [|fuel IH]; intros c Hfuel; [lia|].
  cbn [get_player_move_loop].
  eapply post_bind.
  { eapply post_weaken; [apply input_post; text_differs | |].
    - intros line c1 H. exact H.
    - intros e c1 (Hq & -> & Hnil). split; [done|]. left. by left. }
  intros line c1 [Hq1 Hlen1]. eapply post_bind.
  { eapply post_weaken; [apply read_move_post| |].
    - intros answer c2 H. exact H.
    - intros e c2 [-> Hwhy]. split; [done|].
      destruct Hwhy as [[-> Htext]|[-> Hshort]]; [left; by right | by right]. }
  intros answer c2 (Hq2 & Hin2 & Hvalid).
  assert (Hq : quietly c c2) by by eapply quietly_trans.
  destruct answer as [index|].
  - simpl. split; [by apply Hvalid|]. split; [done|]. rewrite Hin2. lia.
  - eapply post_weaken; [apply IH; rewrite Hin2; lia| |].
    + intros index c3 (Hv & Hq3 & Hlen3). split; [done|].
      split; [by eapply quietly_trans|]. rewrite Hin2 in Hlen3. lia.
    + intros e c3 [Hq3 Hwhy]. split; [by eapply quietly_trans | done].
Qed.

Lemma get_player_move_post py (b : board) (c : console) :
  post (get_player_move py b c)
    (λ index c',
       valid_player_move b index ∧ quietly c c' ∧
       length (stdin c') < length (stdin c))
    (λ e c', quietly c c' ∧
       (gives_up py e c' ∨ (e = PyIndexError ∧ length b < 9))).
Proof. apply get_player_move_loop_post. lia. Qed.

(** X8.  Whatever is typed, [get_player_move] returns only the index of a
    square among the nine that is Empty on the board, after reading at
    least one line; it never loops for ever on a finite input, and the only
    exceptions that escape are [EOFError] once the input is used up,
    [ValueError] from [int] on a text that [isdigit] accepted, and
    [IndexError] on a board of fewer than nine cells. *)
Theorem get_player_move_outcome (py : str_methods) (b : board) (c : console) :
  match get_player_move py b c with
  | Returned index c' =>
      index < 9 ∧ b !! index = Some EMPTY ∧
      ∃ used, used ≠ [] ∧ stdin c = used ++ stdin c'
  | Raised e c' =>
      (e = PyEOFError ∧ stdin c' = []) ∨
      (e = PyValueError ∧ ∃ text, py_isdigit py text = true ∧ py_int py text = None) ∨
      (e = PyIndexError ∧ length b < 9)
  | Exhausted => False
  end.
Proof.
  pose proof (get_player_move_post py b c) as H.
  destruct (get_player_move py b c) as [index c'|e c'|]; simpl in H; [| |done].
  - destruct H as ([Hlt Hcell] & [[used Hused] _] & Hlen).
    split; [done|]. split; [done|]. exists used. split; [|done].
    intros ->. simpl in Hused. rewrite Hused in Hlen. lia.
  - destruct H as [_ [[H|H]|H]]; auto.
Qed.

Lemma read_move_digits py (b : board) (r col : nat) (c : console) :
  reads_digits py → 1 ≤ r ≤ 3 → 1 ≤ col ≤ 3 →
  b !! ((r - 1) * 3 + (col - 1)) = Some EMPTY →
  read_move py b (digit_text r ++ "," ++ digit_text col)%string c =
  Returned (Some ((r - 1) * 3 + (col - 1))) c.
Proof.
  intros Hpy Hr Hc Hcell.
  destruct (Hpy r col Hr Hc) as (Hline & Hrs & Hrd & Hri).
  destruct (Hpy col r Hc Hr) as (_ & Hcs & Hcd & Hci).
  unfold read_move. rewrite Hline.
  assert (Hsplit : split_comma (digit_text r ++ "," ++ digit_text col)%string
                   = Some (digit_text r, digit_text col)).
  { assert (r = 1 ∨ r = 2 ∨ r = 3) as [->|[->| ->]] by lia; reflexivity. }
  assert (Hcomma : has_comma (digit_text r ++ "," ++ digit_text col)%string = true).
  { assert (r = 1 ∨ r = 2 ∨ r = 3) as [->|[->| ->]] by lia; reflexivity. }
  rewrite Hcomma, Hsplit. cbn [negb]. rewrite Hrs, Hcs, Hrd, Hcd, Hri, Hci.
  cbn [negb orb].
  rewrite !bool_decide_eq_true_2 by (rewrite !elem_of_cons; lia).
  cbn [negb orb].
  replace (Z.to_nat ((Z.of_nat r - 1) * 3 + (Z.of_nat col - 1)))
    with ((r - 1) * 3 + (col - 1)) by lia.
  unfold io_bind, lift, get_item. rewrite Hcell.
  by destruct (String.eqb_spec EMPTY EMPTY).
Qed.

(** X9.  Every Empty square can be chosen: with [strip], [isdigit] and
    [int] treating the digits 1 to 3 as Python does, typing the row and the
    column of square [i], counted from 1 and joined by a comma, makes
    [get_player_move] return [i] after that one line and the one prompt. *)
Theorem get_player_move_takes_square (py : str_methods) (b : board) (i : nat)
    (rest out : list string) :
  reads_digits py → i < 9 → b !! i = Some EMPTY →
  get_player_move py b
    {| stdin := (digit_text (i / 3 + 1) ++ "," ++ digit_text (i mod 3 + 1))%string :: rest;
       stdout := out |} =
  Returned i
    {| stdin := rest; stdout := out ++ ["Choose your move (row,col) e.g. 1,3: "] |}.
Proof.
  intros Hpy Hi Hcell.
  pose proof (Nat.div_mod_eq i 3) as Hdm.
  pose proof (Nat.mod_upper_bound i 3 ltac:(lia)) as Hmod.
  assert (Hdiv : i / 3 < 3) by (apply Nat.Div0.div_lt_upper_bound; lia).
  assert (Hindex : (i / 3 + 1 - 1) * 3 + (i mod 3 + 1 - 1) = i) by lia.
  unfold get_player_move. cbn [stdin length get_player_move_loop].
  unfold io_bind at 1. unfold input, io_bind, write. cbn [stdin stdout].
  rewrite (read_move_digits py b (i / 3 + 1) (i mod 3 + 1)); try done; try lia.
  - by rewrite Hindex.
  - by rewrite Hindex.
Qed.

Lemma ascii_methods_read_digits : reads_digits ascii_methods.
Proof.
  intros r c Hr Hc.
  assert (r = 1 ∨ r = 2 ∨ r = 3) as [->|[->| ->]] by lia;
    assert (c = 1 ∨ c = 2 ∨ c = 3) as [->|[->| ->]] by lia;
    repeat split.
Qed.

Lemma get_player_move_takes_square_witness :
  get_player_move ascii_methods empty_board
    {| stdin := ["2,2"; "1,1"]; stdout := [] |} =
  Returned 4
    {| stdin := ["1,1"]; stdout := ["Choose your move (row,col) e.g. 1,3: "] |}.
Proof.
  apply (get_player_move_takes_square ascii_methods empty_board 4 ["1,1"] []).
  - apply ascii_methods_read_digits.
  - lia.
  - reflexivity.
Defined.

Lemma ask_play_again_loop_spec py fuel (c : console) :
  length (stdin c) < fuel →
  match ask_play_again_loop py fuel c with
  | Returned again c' =>
      ∃ skipped line,
        stdin c = skipped ++ line :: stdin c' ∧
        Forall (λ l, answers py l = false) skipped ∧
        py_lower py (py_strip py line) ∈ (if again then ["y"; "yes"] else ["n"; "no"]) ∧
        stdout c' = stdout c ++ nagging skipped ++ ["Play again? (y/n): "]
  | Raised e c' =>
      e = PyEOFError ∧ stdin c' = [] ∧
      Forall (λ l, answers py l = false) (stdin c) ∧
      stdout c' = stdout c ++ nagging (stdin c) ++ ["Play again? (y/n): "]
  | Exhausted => False
  end.
Proof.
  revert c. induction fuel as [|fuel IH]; intros c Hfuel; [lia|].
  cbn [ask_play_again_loop]. unfold io_bind at 1. unfold input, io_bind, write.
  cbn [stdin stdout].
  destruct (stdin c) as [|line rest] eqn:Hin.
  { repeat split; constructor. }
  destruct (bool_decide (py_lower py (py_strip py line) ∈ ["y"; "yes"])) eqn:Hyes.
  { apply bool_decide_eq_true in Hyes. exists [], line. repeat split; done || constructor. }
  destruct (bool_decide (py_lower py (py_strip py line) ∈ ["n"; "no"])) eqn:Hno.
  { apply bool_decide_eq_true in Hno. exists [], line. repeat split; done || constructor. }
  apply bool_decide_eq_false in Hyes, Hno.
  assert (Hline : answers py line = false).
  { apply bool_decide_eq_false. rewrite !elem_of_cons in *. tauto. }
  unfold io_bind, print, write. cbn [stdin stdout].
  specialize (IH {| stdin := rest;
                    stdout := (stdout c ++ ["Play again? (y/n): "]) ++
                              [("Please enter 'y' or 'n'." ++ newline)%string] |}).
  cbn [stdin stdout] in IH. specialize (IH ltac:(simpl in Hfuel; lia)).
  destruct (ask_play_again_loop py fuel _) as [again c'|e c'|]; [| |done].
  - destruct IH as (skipped & l & Hs & Hall & Hl & Hout).
    exists (line :: skipped), l. split; [by rewrite Hs|].
    split; [by constructor|]. split; [done|].
    rewrite Hout. cbn [nagging flat_map]. by rewrite <- !app_assoc.
  - destruct IH as (-> & Hnil & Hall & Hout).
    split; [done|]. split; [done|]. split; [by constructor|].
    rewrite Hout. cbn [nagging flat_map]. by rewrite <- !app_assoc.
Qed.

(** X10.  [ask_play_again] answers with the first line that, stripped and
    lowered, is [y] or [yes] (True) or [n] or [no] (False); for every line
    before it the prompt and the reminder are written once, for the line
    taken the prompt alone; when no line answers, all are read and
    [EOFError] escapes. *)
Theorem ask_play_again_outcome (py : str_methods) (c : console) :
  match ask_play_again py c with
  | Returned again c' =>
      ∃ skipped line,
        stdin c = skipped ++ line :: stdin c' ∧
        Forall (λ l, answers py l = false) skipped ∧
        py_lower py (py_strip py line) ∈ (if again then ["y"; "yes"] else ["n"; "no"]) ∧
        stdout c' = stdout c ++ nagging skipped ++ ["Play again? (y/n): "]
  | Raised e c' =>
      e = PyEOFError ∧ stdin c' = [] ∧
      Forall (λ l, answers py l = false) (stdin c) ∧
      stdout c' = stdout c ++ nagging (stdin c) ++ ["Play again? (y/n): "]
  | Exhausted => False
  end.
Proof. apply ask_play_again_loop_spec. lia. Qed.

Lemma nagging_quiet (lines : list string) : you_win ∉ nagging lines.
Proof.
  induction lines as [|l lines IH]; [inversion 1|].
  cbn [nagging flat_map]. fold (nagging lines).
  rewrite not_elem_of_app. split; [|done].
  rewrite !elem_of_cons, elem_of_nil. intros [H|[H|[]]]; vm_compute in H; discriminate H.
Qed.

Lemma ask_play_again_post py (c : console) :
  post (ask_play_again py c)
    (λ _ c', quietly c c' ∧ length (stdin c') < length (stdin c))
    (λ e c', quietly c c' ∧ gives_up py e c').
Proof.
  pose proof (ask_play_again_loop_spec py (S (length (stdin c))) c ltac:(lia)) as H.
  change (ask_play_again_loop py (S (length (stdin c))) c)
    with (ask_play_again py c) in H.
  assert (Hprompt : ∀ lines,
            you_win ∉ nagging lines ++ ["Play again? (y/n): "%string]).
  { intros lines. rewrite not_elem_of_app. split; [apply nagging_quiet|].
    rewrite list_elem_of_singleton. text_differs. }
  destruct (ask_play_again py c) as [again c'|e c'|]; simpl; [| |done].
  - destruct H as (skipped & line & Hs & _ & _ & Hout). split.
    + split; [exists (skipped ++ [line]); by rewrite <- app_assoc|].
      by exists (nagging skipped ++ ["Play again? (y/n): "%string]).
    + rewrite Hs, length_app. simpl. lia.
  - destruct H as (-> & Hnil & _ & Hout). split; [|by left]. split.
    + exists (stdin c). by rewrite Hnil, app_nil_r.
    + by exists (nagging (stdin c) ++ ["Play again? (y/n): "%string]).
Qed.

Lemma display_board_nine (c0 c1 c2 c3 c4 c5 c6 c7 c8 : string) (extra : board)
    (c : console) :
  display_board (c0 :: c1 :: c2 :: c3 :: c4 :: c5 :: c6 :: c7 :: c8 :: extra) c =
  Returned tt
    {| stdin := stdin c;
       stdout := stdout c ++
         [ newline ++ newline;
           "   1   2   3" ++ newline;
           ("1" ++ "  " ++ c0 ++ " | " ++ c1 ++ " | " ++ c2) ++ newline;
           "  ---+---+---" ++ newline;
           ("2" ++ "  " ++ c3 ++ " | " ++ c4 ++ " | " ++ c5) ++ newline;
           "  ---+---+---" ++ newline;
           ("3" ++ "  " ++ c6 ++ " | " ++ c7 ++ " | " ++ c8) ++ newline;
           newline ++ newline ]%string |}.
Proof.
  unfold display_board, board_row, io_bind, print, write, lift, get_item.
  cbn [lookup list_lookup stdin stdout]. by rewrite <- !app_assoc.
Qed.

Lemma display_board_post (b : board) (c : console) E :
  9 ≤ length b →
  post (display_board b c) (λ _ c', quietly c c' ∧ stdin c' = stdin c) E.
Proof.
  intros Hlen.
  do 9 (destruct b as [|? b]; [simpl in Hlen; lia|]).
  rewrite display_board_nine. simpl. split; [|done].
  split; [by exists []|]. eexists. split; [done|].
  rewrite !elem_of_cons, elem_of_nil.
  intros [H|[H|[H|[H|[H|[H|[H|[H|[]]]]]]]]];
    unfold you_win in H; simpl in H; discriminate H.
Qed.

(** X11.  [display_board] reads nothing and draws a board of nine cells or
    more with its eight calls of [print], the cells after the ninth playing
    no part; on a board of fewer cells it raises [IndexError], by which
    time the two calls for the heading have already printed. *)
Theorem display_board_outcome (b : board) (c : console) :
  (9 ≤ length b →
     ∃ out, display_board b c =
              Returned tt {| stdin := stdin c; stdout := stdout c ++ out |} ∧
            length out = 8 ∧
            display_board (take 9 b) c = display_board b c) ∧
  (length b < 9 →
     ∃ out, display_board b c =
              Raised PyIndexError {| stdin := stdin c; stdout := stdout c ++ out |} ∧
            2 ≤ length out).
Proof.
  split; intros Hlen.
  - do 9 (destruct b as [|? b]; [simpl in Hlen; lia|]).
    cbn [take]. rewrite take_0, !display_board_nine. by eexists.
  - unfold display_board, board_row, io_bind, print, write, lift, get_item.
    do 9 (destruct b as [|? b];
          [cbn [lookup list_lookup stdin stdout]; rewrite <- ?app_assoc;
           eexists; split; [reflexivity | simpl; lia]|]).
    simpl in Hlen. lia.
Qed.

Lemma display_board_outcome_witness :
  ∃ out, display_board ["X"; "O"; " "] {| stdin := ["1,1"]; stdout := [] |} =
           Raised PyIndexError {| stdin := ["1,1"]; stdout := [] ++ out |} ∧
         2 ≤ length out.
Proof.
  apply (display_board_outcome ["X"; "O"; " "] {| stdin := ["1,1"]; stdout := [] |}).
  simpl. lia.
Defined.

Lemma one_character (cell : string) :
  String.length cell = 1 → ∃ a, cell = String a EmptyString.
Proof.
  destruct cell as [|a [|? ?]]; simpl; try done. by exists a.
Qed.

(** X12.  The drawing tells positions apart: two boards of nine cells of
    one character each that [display_board] draws alike are the same
    board. *)
Theorem display_board_tells_apart (b1 b2 : board) (c : console) :
  length b1 = 9 → length b2 = 9 →
  Forall (λ cell, String.length cell = 1) b1 →
  Forall (λ cell, String.length cell = 1) b2 →
  display_board b1 c = display_board b2 c → b1 = b2.
Proof.
  intros Hlen1 Hlen2 Hone1 Hone2.
  do 9 (destruct b1 as [|? b1]; [simpl in Hlen1; lia|]).
  do 9 (destruct b2 as [|? b2]; [simpl in Hlen2; lia|]).
  destruct b1; [|simpl in Hlen1; lia]. destruct b2; [|simpl in Hlen2; lia].
  repeat match goal with
         | H : Forall _ (_ :: _) |- _ => apply Forall_cons in H as [?%one_character H]
         end.
  destruct_and?. repeat match goal with H : ∃ _, _ |- _ => destruct H as [? ->] end.
  rewrite !display_board_nine. intros [= Hout].
  apply app_inv_head in Hout. simpl in Hout. by simplify_eq.
Qed.

Lemma display_board_tells_apart_witness : drawn_board = drawn_board.
Proof.
  apply (display_board_tells_apart drawn_board drawn_board
           {| stdin := []; stdout := [] |}); try reflexivity.
  - unfold drawn_board. repeat (apply List.Forall_cons; [reflexivity|]).
    apply List.Forall_nil.
  - unfold drawn_board. repeat (apply List.Forall_cons; [reflexivity|]).
    apply List.Forall_nil.
Defined.

(** * A round, and the program *)

Lemma ends_with_after (lasts : list string) (c0 c c' : console) :
  quietly c0 c → ends_with lasts c c' → ends_with lasts c0 c'.
Proof.
  intros Hq (c1 & last & Hq1 & Hin & Hout & Hlast).
  exists c1, last. split; [by eapply quietly_trans | done].
Qed.

Lemma ends_with_print (lasts : list string) (c : console) (text : string) :
  (text ++ newline)%string ∈ lasts → ends_with lasts c (
    {| stdin := stdin c; stdout := stdout c ++ [(text ++ newline)%string] |}).
Proof. intros Hin. exists c, (text ++ newline)%string. split; [apply quietly_refl | done]. Qed.

Lemma ends_with_quietly (lasts : list string) (c c' : console) :
  you_win ∉ lasts → ends_with lasts c c' → quietly c c'.
Proof.
  intros Hl (c1 & last & Hq1 & Hin & Hout & Hlast).
  eapply quietly_trans; [done|]. split; [exists []; by rewrite Hin|].
  exists [last]. split; [done|]. rewrite list_elem_of_singleton. by intros <-.
Qed.

Lemma ends_with_stdin_length (lasts : list string) (c c' : console) :
  ends_with lasts c c' → length (stdin c') ≤ length (stdin c).
Proof.
  intros (c1 & last & Hq1 & Hin & _). rewrite Hin. by apply quietly_stdin_length.
Qed.

Lemma game_loop_post py fuel (b : board) (p : string) (c : console) :
  reachable game_turn b (Running p) → count_empty b < fuel →
  post (game_loop py fuel b p c)
    (λ _ c', ends_with round_ends c c' ∧
             (p = PLAYER → length (stdin c') < length (stdin c)))
    (λ e c', quietly c c' ∧ gives_up py e c').
Proof.
  revert b p c. induction fuel as [|fuel IH]; intros b p c Hreach Hfuel; [lia|].
  pose proof (game_reachable_inv b _ Hreach) as (Hany & Hgame & _).
  pose proof (any_reachable_inv b _ Hany) as Hinv.
  pose proof Hinv as (Hlen & Hp & _).
  cbn [game_loop]. eapply post_bind with
    (Q1 := λ b' c1, quietly c c1 ∧ (p = PLAYER → length (stdin c1) < length (stdin c)) ∧
                    ∃ i st, b !! i = Some EMPTY ∧ b' = <[i:=p]> b ∧
                            game_turn b p b' st ∧ finish_turn b' p = Ok st).
  { destruct Hp as [-> | ->].
    - change (String.eqb PLAYER PLAYER) with true. cbv iota.
      eapply post_bind.
      { eapply post_weaken; [apply get_player_move_post| |].
        - intros index c1 H. exact H.
        - intros e c1 [Hq [Hwhy|[_ Hshort]]]; [done | lia]. }
      intros index c1 (Hvalid & Hq & Hdec).
      pose proof Hvalid as [Hlt Hcell].
      destruct (free_turn_total b PLAYER index Hlen Hcell) as (b' & st & Hturn).
      pose proof (free_turn_ok _ _ _ _ _ Hturn) as [-> Hfin].
      unfold lift, make_move.
      assert (set_item b index PLAYER = Ok (<[index:=PLAYER]> b)) as ->.
      { apply set_item_ok. split; [lia | done]. }
      simpl. split; [done|]. split; [done|]. exists index, st.
      repeat split; try done. exists index. by rewrite play_turn_player.
    - change (String.eqb COMPUTER PLAYER) with false. cbv iota.
      destruct Hgame as [[Hp _]|[_ Hhold]]; [discriminate Hp|].
      destruct (computer_move_holds b Hinv Hhold) as (mv & Hmove & Hcell & _).
      destruct (free_turn_total b COMPUTER mv Hlen Hcell) as (b' & st & Hturn).
      pose proof (free_turn_ok _ _ _ _ _ Hturn) as [-> Hfin].
      eapply post_bind; [apply print_post; text_differs|].
      intros _ c1 [Hq Hin]. rewrite Hmove. unfold io_bind, lift, make_move.
      assert (set_item b mv COMPUTER = Ok (<[mv:=COMPUTER]> b)) as ->.
      { apply set_item_ok. split; [|done]. by apply lookup_lt_Some in Hcell. }
      simpl. split; [done|]. split; [done|]. exists mv, st.
      repeat split; try done. exists 0. split; [done|].
      by rewrite (play_turn_computer b 0 mv Hmove). }
  intros b' c1 (Hq1 & Hdec1 & i & st & Hcell & -> & Hturn & Hfin).
  pose proof (reachable_turn game_turn b p _ st Hreach Hturn) as Hreach'.
  pose proof (game_reachable_inv _ _ Hreach') as (_ & Hgame' & _).
  assert (Hlen' : length (<[i:=p]> b) = 9) by by rewrite length_insert.
  assert (Hcount : S (count_empty (<[i:=p]> b)) = count_empty b).
  { apply count_empty_insert; [done|]. by destruct Hp as [-> | ->]. }
  eapply post_bind; [apply display_board_post; lia|].
  intros _ c2 [Hq2 Hin2].
  assert (Hq : quietly c c2) by by eapply quietly_trans.
  assert (Hdec : p = PLAYER → length (stdin c2) < length (stdin c)).
  { intros Hpl. rewrite Hin2. by apply Hdec1. }
  unfold finish_turn in Hfin. unfold io_bind at 1, lift at 1.
  destruct (check_win (<[i:=p]> b) p) as [[]| |]; cbn [bind] in Hfin; [| |done..].
  - injection Hfin as <-. simpl in Hgame'. subst p.
    change (String.eqb COMPUTER PLAYER) with false. cbv iota.
    change (String.eqb "Computer" "Computer") with true. cbv iota.
    simpl. split; [|done].
    apply (ends_with_after _ c c2); [done|].
    apply (ends_with_print round_ends c2 "Computer wins!"). by left.
  - destruct (check_draw (<[i:=p]> b)).
    + simpl. split.
      * apply (ends_with_after _ c c2); [done|].
        apply (ends_with_print round_ends c2 "It's a draw!"). right. by left.
      * intros Hpl. by apply Hdec.
    + injection Hfin as <-.
      eapply post_weaken; [apply IH; [done | lia]| |].
      * intros _ c3 [Hends _]. split; [by apply (ends_with_after _ c c2)|].
        intros Hpl. pose proof (ends_with_stdin_length _ _ _ Hends).
        specialize (Hdec Hpl). lia.
      * intros e c3 [Hq3 Hwhy]. split; [by eapply quietly_trans | done].
Qed.

Lemma round_ends_quiet : you_win ∉ round_ends.
Proof.
  unfold round_ends. rewrite !elem_of_cons, elem_of_nil.
  intros [H|[H|[]]]; vm_compute in H; discriminate H.
Qed.

Lemma play_game_post py (c : console) :
  post (play_game py c)
    (λ _ c', ends_with round_ends c c' ∧ length (stdin c') < length (stdin c))
    (λ e c', quietly c c' ∧ gives_up py e c').
Proof.
  unfold play_game. cbv zeta.
  eapply post_bind; [apply print_post; text_differs|].
  intros _ c1 [Hq1 Hin1].
  eapply post_bind; [by apply display_board_post|].
  intros _ c2 [Hq2 Hin2].
  assert (Hq : quietly c c2) by by eapply quietly_trans.
  eapply post_weaken; [apply game_loop_post; [apply reachable_start | vm_compute; lia]| |].
  - intros _ c3 [Hends Hdec]. split; [by apply (ends_with_after _ c c2)|].
    specialize (Hdec eq_refl). rewrite Hin2, Hin1 in Hdec. done.
  - intros e c3 [Hq3 Hwhy]. split; [by eapply quietly_trans | done].
Qed.

(** X13.  Whatever is typed, a round of [play_game] never announces a win
    of the human.  A round that ends has read at least one line and its
    last output is [Computer wins!] or [It's a draw!]; otherwise
    [EOFError] escapes once the input is used up, or [ValueError] from
    [int] on a text that [isdigit] accepted; no [IndexError] escapes and
    the loop does not go on for ever. *)
Theorem play_game_outcome (py : str_methods) (c : console) :
  match play_game py c with
  | Returned _ c' =>
      ∃ used out last,
        used ≠ [] ∧ stdin c = used ++ stdin c' ∧
        stdout c' = stdout c ++ out ++ [last] ∧ (you_win ∉ out) ∧
        (last = ("Computer wins!" ++ newline)%string ∨
         last = ("It's a draw!" ++ newline)%string)
  | Raised e c' =>
      (∃ out, stdout c' = stdout c ++ out ∧ you_win ∉ out) ∧
      ((e = PyEOFError ∧ stdin c' = []) ∨
       (e = PyValueError ∧ ∃ text, py_isdigit py text = true ∧ py_int py text = None))
  | Exhausted => False
  end.
Proof.
  pose proof (play_game_post py c) as H.
  destruct (play_game py c) as [[] c'|e c'|]; simpl in H; [| |done].
  - destruct H as [(c1 & last & [[used Hused] (out & Hout & Hquiet)] & Hin & Hlast & Hl)
                     Hdec].
    exists used, out, last. rewrite Hin. split.
    { intros ->. rewrite Hused, Hin in Hdec. simpl in Hdec. lia. }
    split; [done|]. split; [by rewrite Hlast, Hout, app_assoc|]. split; [done|].
    unfold round_ends in Hl. rewrite !elem_of_cons, elem_of_nil in Hl. tauto.
  - destruct H as [[_ Hout] Hwhy]. done.
Qed.

Lemma main_loop_post py fuel (c : console) :
  length (stdin c) < fuel →
  post (main_loop py fuel c)
    (λ _ c', ends_with program_ends c c')
    (λ e c', quietly c c' ∧ gives_up py e c').
Proof.
  revert c. induction fuel as [|fuel IH]; intros c Hfuel; [lia|].
  cbn [main_loop].
  eapply post_bind; [apply play_game_post|].
  intros _ c1 [Hends1 Hdec1].
  pose proof (ends_with_quietly _ _ _ round_ends_quiet Hends1) as Hq1.
  eapply post_bind.
  { eapply post_weaken; [apply ask_play_again_post| |].
    - intros again c2 H. exact H.
    - intros e c2 [Hq2 Hwhy]. split; [by eapply quietly_trans | done]. }
  intros again c2 [Hq2 Hdec2].
  assert (Hq : quietly c c2) by by eapply quietly_trans.
  destruct again; cbn [negb]; cbv iota.
  - eapply post_weaken; [apply IH; lia| |].
    + intros u c3 Hends. by apply (ends_with_after _ c c2).
    + intros e c3 [Hq3 Hwhy]. split; [by eapply quietly_trans | done].
  - simpl. apply (ends_with_after _ c c2); [done|].
    apply (ends_with_print program_ends c2 "Thanks for playing!"). by left.
Qed.

(** X14.  Whatever is typed, the program never announces a win of the
    human, in any round.  It ends on any finite input: either it returns,
    and then its last output is [Thanks for playing!], or [EOFError]
    escapes once the input is used up, or [ValueError] from [int] on a text
    that [isdigit] accepted. *)
Theorem main_outcome (py : str_methods) (c : console) :
  match main py c with
  | Returned _ c' =>
      ∃ out, stdout c' = stdout c ++ out ++ [("Thanks for playing!" ++ newline)%string] ∧
             you_win ∉ out
  | Raised e c' =>
      (∃ out, stdout c' = stdout c ++ out ∧ you_win ∉ out) ∧
      ((e = PyEOFError ∧ stdin c' = []) ∨
       (e = PyValueError ∧ ∃ text, py_isdigit py text = true ∧ py_int py text = None))
  | Exhausted => False
  end.
Proof.
  pose proof (main_loop_post py (S (length (stdin c))) c ltac:(lia)) as H.
  change (main_loop py (S (length (stdin c))) c) with (main py c) in H.
  destruct (main py c) as [[] c'|e c'|]; simpl in H; [| |done].
  - destruct H as (c1 & last & [_ (out & Hout & Hquiet)] & Hin & Hlast & Hl).
    exists out. split; [|done]. rewrite Hlast, Hout, <- app_assoc.
    unfold program_ends in Hl. apply list_elem_of_singleton in Hl. by rewrite Hl.
  - destruct H as [[_ Hout] Hwhy]. done.
Qed.

(** X15.  On a board of nine cells or more [check_win] returns a truth
    value, and the cells after the ninth play no part in it. *)
Theorem check_win_first_nine (b : board) (symbol : string) :
  9 ≤ length b →
  (∃ w, check_win b symbol = Ok w) ∧
  check_win (take 9 b) symbol = check_win b symbol.
Proof.
  intros Hlen. split.
  - destruct (any_line_spec b symbol win_lines) as (w & Hw & _); [|by exists w].
    unfold win_lines. repeat (apply List.Forall_cons; [lia|]). apply List.Forall_nil.
  - do 9 (destruct b as [|? b]; [simpl in Hlen; lia|]).
    cbn [take]. by rewrite take_0.
Qed.

Lemma check_win_first_nine_witness :
  (∃ w, check_win ["X"; "X"; "X"; " "; " "; " "; " "; " "; " "; "O"; "O"] "X" = Ok w) ∧
  check_win (take 9 ["X"; "X"; "X"; " "; " "; " "; " "; " "; " "; "O"; "O"]) "X" =
  check_win ["X"; "X"; "X"; " "; " "; " "; " "; " "; " "; "O"; "O"] "X".
Proof.
  apply (check_win_first_nine
           ["X"; "X"; "X"; " "; " "; " "; " "; " "; " "; "O"; "O"] "X").
  simpl. lia.
Defined.
